(** * acpl.py: move judging, opening classification and average centipawn loss

    A shallow embedding of [acpl.py] and of the part of the python-chess
    interface it calls, followed by the properties of the annotator.

    Conventions of the embedding:
    - Python integers are [Z]; strings are [string]; the header mapping of a
      game is a [gmap string string]. A [float] is the rational its double
      stands for: [int / int] rounds the quotient to 53 bits.
    - A call that may raise returns a [Res]; code that mutates the caller's
      board or talks to the engine lives in the state-and-exception monad
      [M], whose state survives a raised exception, as Python objects do.
    - A game is a tree of nodes; a node of the main line is named by its
      depth, the number of [parent] links between it and the root. *)

From stdpp Require Import gmap strings list fin_maps pretty.
From Stdlib Require Import ZArith QArith Lia.

Set Warnings "-register-all".

Local Open Scope Z_scope.

(** ** Python results and exceptions *)

Module Py.

Inductive exn :=
| RuntimeError (msg : string)
| AssertionError
| ZeroDivisionError
| KeyError (key : string)
| IndexError
| TypeError
| AttributeError
| EngineError.

Inductive Res (A : Type) :=
| Ok (a : A)
| Raise (e : exn).
Arguments Ok {A} a.
Arguments Raise {A} e.

(** State and exceptions: the state reached when an exception is raised is
    kept, since a mutated object stays mutated while the exception
    propagates. *)
Definition M (S A : Type) : Type := S → Res A * S.

Definition ret {S A} (a : A) : M S A := λ s, (Ok a, s).
Definition raise {S A} (e : exn) : M S A := λ s, (Raise e, s).
Definition bind {S A B} (m : M S A) (k : A → M S B) : M S B :=
  λ s, match m s with
       | (Ok a, s') => k a s'
       | (Raise e, s') => (Raise e, s')
       end.
Definition lift {S A} (r : Res A) : M S A := λ s, (r, s).
Definition get {S} : M S S := λ s, (Ok s, s).
Definition modify {S} (f : S → S) : M S unit := λ s, (Ok tt, f s).

(** Numbers as [round] and [str] see them: an [int], or the [float] that a
    true division returns, a double kept as the rational it stands for. *)
Inductive num :=
| PInt (z : Z)
| PFloat (q : Q).

(** [round(x)] with one argument: the nearest integer, a tie going to the
    even neighbour. *)
Definition round_half_even (q : Q) : Z :=
  let n := Qnum q in
  let d := Zpos (Qden q) in
  let fl := n `div` d in
  let r := n `mod` d in
  if decide (2 * r < d) then fl
  else if decide (d < 2 * r) then fl + 1
  else if Z.even fl then fl else fl + 1.

Definition round (x : num) : Z :=
  match x with
  | PInt z => z
  | PFloat q => round_half_even q
  end.

(** [2 ** k], and 1 for a negative [k]. *)
Definition pow2 (k : Z) : Z := 2 ^ Z.max 0 k.

(** The fraction [n / d] times [2 ** k], for [k] of either sign. *)
Definition scaled (n : Z) (d : positive) (k : Z) : Q :=
  Qmake (n * pow2 k) (d * Z.to_pos (pow2 (- k))).

(** The binary exponent of [n / d], for [n] other than 0: the [e] with
    [2 ** e <= |n / d| < 2 ** (e + 1)]. *)
Definition exponent (n : Z) (d : positive) : Z :=
  let e := Z.log2 (Z.abs n) - Z.log2 (Zpos d) in
  if decide (Zpos d * pow2 e ≤ Z.abs n * pow2 (- e)) then e else e - 1.

(** The float nearest to [n / d]: the quotient is rounded to the 53 bits
    of a double's significand, a tie going to the even significand, which
    is how CPython divides two integers. The exponent of a double is not
    bounded here: Python raises [OverflowError] for a quotient from
    [2 ** 1024] on and goes to subnormal numbers below [2 ** -1022]. *)
Definition nearest_double (n : Z) (d : positive) : Q :=
  if decide (n = 0) then 0%Q
  else
    let e := exponent n d in
    scaled (round_half_even (scaled n d (52 - e))) 1 (e - 52).

(** [a / b] on integers. *)
Definition truediv (a b : Z) : Res num :=
  if decide (b = 0) then Raise ZeroDivisionError
  else Ok (PFloat (nearest_double (a * Z.sgn b) (Z.to_pos (Z.abs b)))).

(** [str(n)] for an integer. *)
Definition str (z : Z) : string := pretty z.

(** [sum(l)] and [len(l)]. *)
Definition sum (l : list Z) : Z := foldr Z.add 0 l.
Definition len {A} (l : list A) : Z := Z.of_nat (length l).

End Py.

Import Py.

Notation "x <- m ;; k" := (bind m (λ x, k))
  (at level 100, m at next level, right associativity,
   format "'[v' x  <-  m  ;;  '/' k ']'").
Notation "m ;;; k" := (bind m (λ _, k))
  (at level 100, right associativity).

(** ** The python-chess interface used by acpl.py *)

Module Chess.

(** [chess.Move]; two moves are equal when all four fields are. *)
Record Move := mkMove {
  from_square : N;
  to_square : N;
  promotion : option N;
  drop : option N
}.

#[global] Instance Move_eq_dec : EqDecision Move.
Proof. solve_decision. Defined.

(** [chess.engine.Score]: centipawns, mate in [moves] (negative when the
    side is being mated), or mate already given. *)
Inductive Score :=
| Cp (cp : Z)
| Mate (moves : Z)
| MateGiven.

(** [Score.__neg__]. *)
Definition neg (s : Score) : Score :=
  match s with
  | Cp n => Cp (- n)
  | Mate n => if decide (n = 0) then MateGiven else Mate (- n)
  | MateGiven => Mate 0
  end.

(** [Score.score(mate_score=m)]. *)
Definition score (s : Score) (mate_score : Z) : Z :=
  match s with
  | Cp n => n
  | Mate n => if decide (0 < n) then mate_score - n else - mate_score - n
  | MateGiven => mate_score
  end.

(** [chess.engine.PovScore]: a score and the side whose point of view it
    takes; [true] is White, as [chess.WHITE] is. *)
Record PovScore := mkPovScore {
  relative : Score;
  pov_turn : bool
}.

Definition pov (p : PovScore) (color : bool) : Score :=
  if decide (pov_turn p = color) then relative p else neg (relative p).

Definition white (p : PovScore) : Score := pov p true.

(** [chess.Board]: the current position, the moves pushed so far and the
    positions they were pushed on, most recent first. *)
Record Board {Position : Type} := mkBoard {
  pos : Position;
  move_stack : list Move;
  stack : list Position
}.
Arguments Board Position : clear implicits.
Arguments mkBoard {Position} pos move_stack stack.

(** What the rules of chess decide: the side to move ([true] is White), the
    position after a move, the two strings [eco_fen] asks for, legality,
    and the end of the game with draws counted as soon as they can be
    claimed, which looks at the earlier positions too. *)
Class Rules (Position : Type) := {
  turn : Position → bool;
  step : Position → Move → Position;
  board_fen : Position → string;
  castling_xfen : Position → string;
  is_legal : Position → Move → bool;
  is_game_over_claim_draw : Board Position → bool
}.

Section Boards.
Context {Position : Type} `{!Rules Position}.

Definition fresh (p : Position) : Board Position := mkBoard p [] [].

(** [board.push(move)]. *)
Definition push (b : Board Position) (m : Move) : Board Position :=
  mkBoard (step (pos b) m) (m :: move_stack b) (pos b :: stack b).

(** [board.pop()]. *)
Definition pop (b : Board Position) : Res (Move * Board Position) :=
  match move_stack b, stack b with
  | m :: ms, p :: ps => Ok (m, mkBoard p ms ps)
  | _, _ => Raise IndexError
  end.

Definition push_all (b : Board Position) (ms : list Move) : Board Position :=
  foldl push b ms.

End Boards.

(** The reply of the engine process to one search: the keys of the info
    dictionary it fills in, the score being the one of the side to move. *)
Record Reply := mkReply {
  reply_pv : option (list Move);
  reply_score : option Score
}.

(** The info dictionary [engine.analyse] returns. *)
Record Info := mkInfo {
  info_pv : option (list Move);
  info_score : option PovScore
}.

(** An engine: a state of its own and an answer, or a failure, to each
    position and depth limit. *)
Class Engine (Position : Type) := {
  EngineState : Type;
  respond : EngineState → Board Position → Z → Res Reply * EngineState
}.

End Chess.

Import Chess.

(** ** acpl.py *)

Module Acpl.

Definition MAX_SCORE : Z := 10000.
Definition MAX_CPL : Z := 2000.
Definition SHORT_PV_LEN : nat := 10.

(** [info['score'].white().score(mate_score=10_000)]. *)
Definition eval_numeric (info : Info) : Res Z :=
  match info_score info with
  | None => Raise (KeyError "score")
  | Some s => Ok (score (white s) 10000)
  end.

Definition eval_absolute (number : Z) (white_to_move : bool) : Z :=
  if white_to_move then number else - number.

(** The judgment dictionary, with the keys [judge_move] fills in. *)
Record Judgment := mkJudgment {
  bestmove : Move;
  besteval : Z;
  playedeval : Z
}.

(** [cpl]: [int(string)] is the identity on the integer it is given. *)
Definition cpl (delta : Z) : Z := Z.min delta MAX_CPL.

(** [acpl]: the division raises on an empty list and the handler turns
    exactly that exception into the integer 0. *)
Definition acpl (cpl_list : list Z) : Res num :=
  match truediv (sum cpl_list) (len cpl_list) with
  | Raise ZeroDivisionError => Ok (PInt 0)
  | r => r
  end.

(** *** Game trees *)

(** What [node.comment] holds: [None], a string, or a judgment. *)
Inductive Comment :=
| CNone
| CStr (s : string)
| CJudgment (j : Judgment).

(** A node owns its comment, the comment python-chess keeps in front of
    its move ([starting_comment], a string, empty when there is none), its
    NAGs and its continuations; the move that leads to a child is kept with
    the child in [variations], so the root is the one node without a
    move. *)
Inductive GameNode := mkNode {
  comment : Comment;
  starting_comment : string;
  nags : list N;
  variations : list (Move * GameNode)
}.

Record Game {Position : Type} := mkGame {
  headers : gmap string string;
  errors : list string;
  setup : Position;
  root : GameNode
}.
Arguments Game Position : clear implicits.
Arguments mkGame {Position} headers errors setup root.

(** Depth of [node.end()] below [t]: follow the first variation until there
    is none. *)
Fixpoint end_depth (t : GameNode) : nat :=
  match t with
  | mkNode _ _ _ vs =>
      match vs with
      | [] => O
      | (_, v) :: _ => S (end_depth v)
      end
  end.

(** The main-line node at depth [d] below [t]. *)
Fixpoint node_at (d : nat) (t : GameNode) : option GameNode :=
  match d with
  | O => Some t
  | S d' =>
      match variations t with
      | [] => None
      | (_, v) :: _ => node_at d' v
      end
  end.

(** An assignment to attributes of the main-line node at depth [d]. *)
Fixpoint update_at (d : nat) (f : GameNode → GameNode) (t : GameNode)
  : GameNode :=
  match d with
  | O => f t
  | S d' =>
      match variations t with
      | [] => t
      | (m, v) :: rest =>
          mkNode (comment t) (starting_comment t) (nags t)
            ((m, update_at d' f v) :: rest)
      end
  end.

(** The moves of the main line below [t], first move first. *)
Fixpoint mainline_moves (t : GameNode) : list Move :=
  match t with
  | mkNode _ _ _ vs =>
      match vs with
      | [] => []
      | (m, v) :: _ => m :: mainline_moves v
      end
  end.

(** [node.parent] for the node at depth [d]; the root has none. *)
Definition parent (d : nat) : option nat :=
  match d with
  | O => None
  | S d' => Some d'
  end.

Definition set_comment (c : Comment) (t : GameNode) : GameNode :=
  mkNode c (starting_comment t) (nags t) (variations t).

Section Annotator.
Context {Position : Type} `{!Rules Position} `{!Engine Position}.

(** [game.end()]. *)
Definition game_end (g : Game Position) : nat := end_depth (root g).

(** [node.board()] for the node at depth [d]: the moves leading to the node
    replayed on a fresh board of the starting position. *)
Definition board_at (g : Game Position) (d : nat) : Board Position :=
  push_all (fresh (setup g)) (take d (mainline_moves (root g))).

(** [node.move] for the node at depth [d]. *)
Definition move_at (g : Game Position) (d : nat) : option Move :=
  match d with
  | O => None
  | S d' => mainline_moves (root g) !! d'
  end.

(** *** judge_move *)

(** The objects [judge_move] works on: the caller's board, the engine, and
    a record of the searches the engine was asked for (not program data:
    it only lets the properties count the queries). *)
Record World := mkWorld {
  board : Board Position;
  engine : EngineState;
  queries : list (Board Position * Z)
}.

(** [engine.analyse(board, chess.engine.Limit(depth=d))]: the score of the
    reply is wrapped with the side to move of the board searched. *)
Definition analyse (depth : Z) : M World Info :=
  λ w,
    let '(r, e') := respond (engine w) (board w) depth in
    let w' := mkWorld (board w) e' (queries w ++ [(board w, depth)]) in
    match r with
    | Ok rep =>
        (Ok (mkInfo (reply_pv rep)
               ((λ s, mkPovScore s (turn (pos (board w)))) <$> reply_score rep)),
         w')
    | Raise e => (Raise e, w')
    end.

Definition board_push (m : Move) : M World unit :=
  modify (λ w, mkWorld (push (board w) m) (engine w) (queries w)).

Definition board_pop : M World Move :=
  λ w, match pop (board w) with
       | Ok (m, b) => (Ok m, mkWorld b (engine w) (queries w))
       | Raise e => (Raise e, w)
       end.

(** [info["pv"][0]]. *)
Definition first_pv_move (info : Info) : Res Move :=
  match info_pv info with
  | None => Raise (KeyError "pv")
  | Some [] => Raise IndexError
  | Some (m :: _) => Ok m
  end.

Definition judge_move (played_move : Move) : M World Judgment :=
  info <- analyse 22 ;;
  best <- lift (first_pv_move info) ;;
  beval <- lift (eval_numeric info) ;;
  if decide (played_move = best) then
    ret (mkJudgment best beval beval)
  else
    board_push played_move ;;;
    info' <- analyse 22 ;;
    peval <- lift (eval_numeric info') ;;
    board_pop ;;;
    ret (mkJudgment best beval peval).

(** *** truncate_pv *)

(** The [for] loop: each move is checked on the board as it stands and then
    pushed; the board keeps what was pushed when the check fails. *)
Fixpoint push_legal (pv : list Move) : M (Board Position) unit :=
  match pv with
  | [] => ret tt
  | move :: rest =>
      b <- get ;;
      if is_legal (pos b) move then
        modify (λ b, push b move) ;;;
        push_legal rest
      else raise AssertionError
  end.

Definition truncate_pv (pv : list Move) : M (Board Position) (list Move) :=
  push_legal pv ;;;
  b <- get ;;
  if is_game_over_claim_draw b then ret pv
  else ret (take SHORT_PV_LEN pv).

(** *** eco_fen, classify_fen *)

Definition eco_fen (b : Board Position) : string :=
  let board_fen := board_fen (pos b) in
  let castling_fen := castling_xfen (pos b) in
  let to_move := if turn (pos b) then "w" else "b" in
  board_fen +:+ " " +:+ to_move +:+ " " +:+ castling_fen.

End Annotator.

(** A record of eco.json. *)
Record Opening := mkOpening {
  eco : string;
  name : string;
  fen : string;
  moves : string
}.

Record Classification := mkClassification {
  code : string;
  desc : string;
  path : string
}.

(** The [for] loop over the table: every matching record overwrites the
    classification, so the last one stays. *)
Definition classify_fen (f : string) (ecodb : list Opening) : Classification :=
  foldl (λ classification opening,
           if decide (fen opening = f)
           then mkClassification (eco opening) (name opening) (moves opening)
           else classification)
        (mkClassification "" "" "") ecodb.

(** *** clean_game *)

(** The loop over [reversed(node.variations)]: the iterator stands on index
    [i] and walks down; the variation it yields is removed unless it is the
    main one, which is the one at index 0. *)
Fixpoint remove_side_variations {A} (i : nat) (vs : list A) : list A :=
  let vs' := if decide (i = O) then vs else delete i vs in
  match i with
  | O => vs'
  | S i' => remove_side_variations i' vs'
  end.

Definition strip_variations {A} (vs : list A) : list A :=
  match length vs with
  | O => vs
  | S k => remove_side_variations k vs
  end.

(** The body of the [while] loop, on one node. *)
Definition clean_node (t : GameNode) : GameNode :=
  mkNode CNone (starting_comment t) [] (strip_variations (variations t)).

(** The [while True] loop, standing on the node at depth [d]. *)
Fixpoint clean_walk (d : nat) (t : GameNode) : GameNode :=
  let t' := update_at d clean_node t in
  match d with
  | O => t'
  | S d' => clean_walk d' t'
  end.

Section Passes.
Context {Position : Type} `{!Rules Position} `{!Engine Position}.

Definition clean_game (game : Game Position) : Game Position :=
  mkGame (headers game) (errors game) (setup game)
         (clean_walk (game_end game) (root game)).

(** *** game_length *)

Fixpoint game_length_walk (d : nat) (ply_count : Z) : Z :=
  match d with
  | O => ply_count
  | S d' => game_length_walk d' (ply_count + 1)
  end.

Definition game_length (game : Game Position) : Z :=
  game_length_walk (game_end game) 0.

(** *** classify_opening *)

(** What [classify_opening] returns, with the depths of the nodes whose
    position string was looked up, in the order of the walk (not program
    data: it only lets the properties say which positions were examined). *)
Record Classified := mkClassified {
  cl_game : Game Position;
  cl_root_node : nat;
  cl_ply_count : Z;
  cl_examined : list nat
}.

(** The [while not node == game.root()] loop, standing on depth [d]; it
    returns the game, [root_node], [ply_count] and the node it stopped on. *)
Fixpoint classify_walk (ecodata : list Opening) (game : Game Position)
    (d : nat) (ply_count : Z) (examined : list nat)
  : Game Position * nat * Z * list nat :=
  match d with
  | O => (game, O, ply_count, examined)
  | S prev_node =>
      let f := eco_fen (board_at game d) in
      let classification := classify_fen f ecodata in
      if decide (code classification ≠ "") then
        let hs := <["Opening" := desc classification]>
                    (<["ECO" := code classification]> (headers game)) in
        let c := CStr (code classification +:+ " " +:+ desc classification) in
        (mkGame hs (errors game) (setup game)
                (update_at d (set_comment c) (root game)),
         d, ply_count, examined ++ [d])
      else
        classify_walk ecodata game prev_node (ply_count + 1) (examined ++ [d])
  end.

(** [ecodata] is the content of eco.json. *)
Definition classify_opening (ecodata : list Opening) (game : Game Position)
  : Classified :=
  let '(g, root_node, ply_count, examined) :=
    classify_walk ecodata game (game_end game) 0 [] in
  mkClassified
    (mkGame (<["Moves" := str ply_count]> (headers g)) (errors g) (setup g)
            (root g))
    root_node ply_count examined.

(** *** add_acpl *)

(** [judgment = node.comment] followed by the two subscripts. *)
Definition judgment_delta (c : Comment) : Res Z :=
  match c with
  | CJudgment judgment => Ok (besteval judgment - playedeval judgment)
  | _ => Raise TypeError
  end.

(** The [while not node == root_node] loop, standing on depth [d] with the
    two lists built so far; walking past the root fails on [None.parent]. *)
Fixpoint acpl_walk (game : Game Position) (root_node : nat) (d : nat)
    (white_cpl black_cpl : list Z) : Res (list Z * list Z) :=
  if decide (d = root_node) then Ok (white_cpl, black_cpl)
  else
    match node_at d (root game) with
    | None => Raise AttributeError
    | Some node =>
        match judgment_delta (comment node) with
        | Raise e => Raise e
        | Ok delta =>
            let '(w, b) :=
              if turn (pos (board_at game d))
              then (white_cpl, black_cpl ++ [cpl delta])
              else (white_cpl ++ [cpl delta], black_cpl) in
            match d with
            | O => Raise AttributeError
            | S prev_node => acpl_walk game root_node prev_node w b
            end
        end
    end.

Definition add_acpl (game : Game Position) (root_node : nat)
  : Res (Game Position) :=
  match acpl_walk game root_node (game_end game) [] [] with
  | Raise e => Raise e
  | Ok (white_cpl, black_cpl) =>
      match acpl white_cpl with
      | Raise e => Raise e
      | Ok wa =>
          let hs := <["WhiteACPL" := str (round wa)]> (headers game) in
          match acpl black_cpl with
          | Raise e => Raise e
          | Ok ba =>
              Ok (mkGame (<["BlackACPL" := str (round ba)]> hs)
                         (errors game) (setup game) (root game))
          end
      end
  end.

(** *** checkgame *)

Definition checkgame (game : Game Position) : Res unit :=
  if decide (errors game ≠ []) then
    Raise (RuntimeError "There were errors parsing the PGN game:")
  else if decide (parent (game_end game) = None) then
    Raise (RuntimeError
             "Could not render the board. Is the file legal PGN?Aborting...")
  else Ok tt.

(** *** analyze_game *)

(** The engine side of the world while a game is analysed; the board handed
    to [judge_move] is a new object at every call. *)
Record Session := mkSession {
  s_engine : EngineState;
  s_queries : list (Board Position * Z)
}.

(** [judge_move(prev_node.board(), node.move, engine)]: the board is built
    for the call and dropped after it. *)
Definition judge_on (b : Board Position) (played_move : Move)
  : M Session Judgment :=
  λ s,
    let '(r, w) := judge_move played_move (mkWorld b (s_engine s) (s_queries s)) in
    (r, mkSession (engine w) (queries w)).

(** The [while not node == root_node] loop of [analyze_game]. *)
Fixpoint judge_walk (root_node : nat) (d : nat) (game : Game Position)
  : M Session (Game Position) :=
  if decide (d = root_node) then ret game
  else
    match d with
    | O => raise AttributeError
    | S prev_node =>
        match move_at game d with
        | None => raise AttributeError
        | Some mv =>
            j <- judge_on (board_at game prev_node) mv ;;
            judge_walk root_node prev_node
              (mkGame (headers game) (errors game) (setup game)
                      (update_at d (set_comment (CJudgment j)) (root game)))
        end
    end.

Definition analyze_game (ecodata : list Opening) (game : Game Position)
  : M Session (Game Position) :=
  lift (checkgame game) ;;;
  let game := clean_game game in
  let c := classify_opening ecodata game in
  let game := cl_game c in
  let root_node := cl_root_node c in
  game <- judge_walk root_node (game_end game) game ;;
  lift (add_acpl game root_node).

End Passes.

End Acpl.

Import Acpl.

(** ** Vocabulary of the properties *)

Module Terms.

(** The evaluation of a score as seen by the side to move, a forced mate
    counted as the constant [MAX_SCORE] whatever its distance: the value
    the description of the judgments speaks of. *)
Definition mover_relative (s : Score) : Z :=
  match s with
  | Cp n => n
  | Mate n => if decide (0 < n) then MAX_SCORE else - MAX_SCORE
  | MateGiven => MAX_SCORE
  end.

(** The main line alone, every node without comment and NAGs and with the
    starting comment it had. *)
Fixpoint linearize (t : GameNode) : GameNode :=
  match t with
  | mkNode _ sc _ vs =>
      mkNode CNone sc []
        match vs with
        | [] => []
        | (m, v) :: _ => [(m, linearize v)]
        end
  end.

(** No node below [t] has a [comment] or a NAG, and every node has exactly
    one continuation, except the last one, which has none. *)
Fixpoint stripped (t : GameNode) : Prop :=
  match t with
  | mkNode c _ ns vs =>
      c = CNone ∧ ns = [] ∧
      match vs with
      | [] => True
      | [(_, v)] => stripped v
      | _ => False
      end
  end.

(** The table as a mapping from position strings to records, a later
    record replacing an earlier one with the same string. *)
Definition fen_index (ecodb : list Opening) : gmap string Opening :=
  list_to_map ((λ o, (fen o, o)) <$> reverse ecodb).

(** The moves of the main line below [t], each with the starting comment
    of the node it leads to. *)
Fixpoint mainline_starts (t : GameNode) : list (Move * string) :=
  match t with
  | mkNode _ _ _ vs =>
      match vs with
      | [] => []
      | (m, v) :: _ => (m, starting_comment v) :: mainline_starts v
      end
  end.

(** The tree that holds the moves [ms], with their starting comments, as
    its main line below a node with the starting comment [sc], and nothing
    else. *)
Fixpoint bare_line (ms : list (Move * string)) (sc : string) : GameNode :=
  match ms with
  | [] => mkNode CNone sc [] []
  | (m, sc') :: ms' => mkNode CNone sc [] [(m, bare_line ms' sc')]
  end.

(** The string has a space in it. *)
Fixpoint has_space (s : string) : bool :=
  match s with
  | EmptyString => false
  | String c s' => if decide (c = Stdlib.Strings.Ascii.Space) then true else has_space s'
  end.

Section WithRules.
Context {Position : Type} `{!Rules Position} `{!Engine Position}.

(** The position string of the node at depth [d] is a key of the table. *)
Definition in_table (ecodata : list Opening) (game : Game Position) (d : nat)
  : Prop :=
  ∃ o, o ∈ ecodata ∧ fen o = eco_fen (board_at game d).

(** The node at depth [d] is classified by the table: the last record
    with its position string carries a code. *)
Definition classified_at (ecodata : list Opening) (game : Game Position)
    (d : nat) : Prop :=
  code (classify_fen (eco_fen (board_at game d)) ecodata) ≠ "".

(** The game with the classification of the node at depth [m] written in
    its headers and on that node. *)
Definition classified_game (ecodata : list Opening) (game : Game Position)
    (m : nat) : Game Position :=
  let c := classify_fen (eco_fen (board_at game m)) ecodata in
  mkGame (<["Opening" := desc c]> (<["ECO" := code c]> (headers game)))
         (errors game) (setup game)
         (update_at m (set_comment (CStr (code c +:+ " " +:+ desc c)))
            (root game)).

(** A game with the number of plies walked written in its headers. *)
Definition with_moves (ply_count : Z) (game : Game Position) : Game Position :=
  mkGame (<["Moves" := str ply_count]> (headers game)) (errors game)
         (setup game) (root game).

(** The value [eval_numeric] yields for a reply with score [s] to a search
    of the board [b]. *)
Definition stored (s : Score) (b : Board Position) : Z :=
  eval_absolute (score s 10000) (turn (pos b)).

(** The record of searches after the boards [bs] were searched in turn. *)
Definition asked (w : World) (bs : list (Board Position))
  : list (Board Position * Z) :=
  queries w ++ ((λ b, (b, 22)) <$> bs).

(** Every move of the variation is legal on the board reached by the moves
    before it. *)
Definition legal_pv (b : Board Position) (pv : list Move) : Prop :=
  ∀ i m, pv !! i = Some m → is_legal (pos (push_all b (take i pv))) m = true.

(** Some move of the variation is illegal at the point it would be
    applied. *)
Definition illegal_pv (b : Board Position) (pv : list Move) : Prop :=
  ∃ i m, pv !! i = Some m ∧ is_legal (pos (push_all b (take i pv))) m = false.

(** The depths the walks from a node at depth [d] up to a node at depth
    [r] stand on: [d], [d - 1], ..., [r + 1]. *)
Definition walked (r d : nat) : list nat := reverse (seq (S r) (d - r)).

(** The centipawn loss recorded in the judgment of the node at depth [k]. *)
Definition loss_at (game : Game Position) (k : nat) : option Z :=
  match comment <$> node_at k (root game) with
  | Some (CJudgment j) => Some (Z.min (besteval j - playedeval j) 2000)
  | _ => None
  end.

(** White made the move into the node at depth [k]: Black is to move
    there. *)
Definition white_moved (game : Game Position) (k : nat) : bool :=
  negb (turn (pos (board_at game k))).

(** The losses of one side between depth [d] and depth [r], in the order
    of the walk. *)
Definition losses (game : Game Position) (white : bool) (r d : nat) : list Z :=
  omap (loss_at game) (filter (λ k, white_moved game k = white) (walked r d)).

(** The game [analyze_game] hands to its walk, cleaned and classified, and
    the node the walk goes up to. *)
Definition prepared (ecodata : list Opening) (game : Game Position)
  : Game Position :=
  cl_game (classify_opening ecodata (clean_game game)).

Definition first_judged (ecodata : list Opening) (game : Game Position) : nat :=
  cl_root_node (classify_opening ecodata (clean_game game)).

End WithRules.

End Terms.

Import Terms.

(** ** A fragment of chess for the examples

    Positions reached from the standard starting position by the moves
    played, most recent first; placement strings, legality and the end of
    the game are tabulated for the few positions the examples visit, with
    the values python-chess gives there. *)

Module Sample.

Definition mv (f t : N) : Move := mkMove f t None None.

(** Squares are numbered a1 = 0, b1 = 1, ..., h8 = 63. *)
Definition e2e4 := mv 12 28.
Definition d2d4 := mv 11 27.
Definition g1f3 := mv 6 21.
Definition f2f3 := mv 13 21.
Definition g2g4 := mv 14 30.
Definition e7e5 := mv 52 36.
Definition c7c5 := mv 50 34.
Definition d8h4 := mv 59 31.
Definition d7d5 := mv 51 35.

Definition Pos := list Move.

Definition s_turn (p : Pos) : bool := Nat.even (length p).
Definition s_step (p : Pos) (m : Move) : Pos := m :: p.

Definition start_fen : string := "rnbqkbnr/pppppppp/8/8/8/8/PPPPPPPP/RNBQKBNR".
Definition e4_fen : string := "rnbqkbnr/pppppppp/8/8/4P3/8/PPPP1PPP/RNBQKBNR".
Definition e4_e5_fen : string := "rnbqkbnr/pppp1ppp/8/4p3/4P3/8/PPPP1PPP/RNBQKBNR".
Definition e4_c5_fen : string := "rnbqkbnr/pp1ppppp/8/2p5/4P3/8/PPPP1PPP/RNBQKBNR".

Definition s_board_fen (p : Pos) : string :=
  if decide (p = []) then start_fen
  else if decide (p = [e2e4]) then e4_fen
  else if decide (p = [e7e5; e2e4]) then e4_e5_fen
  else if decide (p = [c7c5; e2e4]) then e4_c5_fen
  else "".

Definition s_castling_xfen (_ : Pos) : string := "KQkq".

Definition s_is_legal (p : Pos) (m : Move) : bool :=
  if decide (p = []) then bool_decide (m ∈ [e2e4; d2d4; g1f3; f2f3])
  else if decide (p = [e2e4]) then bool_decide (m ∈ [e7e5; c7c5])
  else if decide (p = [e7e5; e2e4]) then bool_decide (m ∈ [g1f3; d2d4])
  else if decide (p = [f2f3]) then bool_decide (m ∈ [e7e5; c7c5])
  else if decide (p = [e7e5; f2f3]) then bool_decide (m ∈ [g2g4; e2e4])
  else if decide (p = [g2g4; e7e5; f2f3]) then bool_decide (m ∈ [d8h4; c7c5])
  else false.

(** Fool's mate is the one finished game of the fragment. *)
Definition s_is_game_over (b : Board Pos) : bool :=
  bool_decide (pos b = [d8h4; g2g4; e7e5; f2f3]).

#[global] Instance sample_rules : Rules Pos := {|
  turn := s_turn;
  step := s_step;
  board_fen := s_board_fen;
  castling_xfen := s_castling_xfen;
  is_legal := s_is_legal;
  is_game_over_claim_draw := s_is_game_over
|}.

(** A scripted engine: its state counts the searches, its reply depends on
    the position only. *)
Definition s_reply (p : Pos) : Res Reply :=
  if decide (p = []) then Ok (mkReply (Some [e2e4; e7e5]) (Some (Cp 30)))
  else if decide (p = [e2e4]) then Ok (mkReply (Some [e7e5; g1f3]) (Some (Cp (-35))))
  else if decide (p = [e7e5; e2e4]) then Ok (mkReply (Some [g1f3]) (Some (Cp 32)))
  else if decide (p = [c7c5; e2e4]) then Ok (mkReply (Some [g1f3]) (Some (Cp 45)))
  else if decide (p = [g2g4; e7e5; f2f3]) then Ok (mkReply (Some [d8h4]) (Some (Mate 1)))
  else if decide (p = [c7c5; g2g4; e7e5; f2f3]) then Ok (mkReply (Some [d2d4]) (Some (Cp (-120))))
  else if decide (p = [d2d4]) then Ok (mkReply (Some [d7d5]) (Some (Cp (-40))))
  else Raise EngineError.

#[global] Instance sample_engine : Engine Pos := {|
  EngineState := nat;
  respond := λ n b _, (s_reply (pos b), S n)
|}.

Definition start_board : Board Pos := fresh [].
Definition after (ms : list Move) : Board Pos := push_all start_board ms.
Definition world (b : Board Pos) : World := mkWorld b O [].

(** A leaf, and a node with one continuation. *)
Definition leaf (c : Comment) : GameNode := mkNode c "" [] [].
Definition line (c : Comment) (m : Move) (t : GameNode) : GameNode :=
  mkNode c "" [] [(m, t)].

Definition tags : gmap string string :=
  <["White" := "kyle_b81"]> (<["Black" := "opponent"]> ∅).

(** The game without moves, 1. e4, and 1. e4 c5. *)
Definition game0 : Game Pos := mkGame tags [] [] (leaf (CStr "")).
Definition game1 : Game Pos :=
  mkGame tags [] [] (line (CStr "") e2e4 (leaf (CStr ""))).
Definition game2 : Game Pos :=
  mkGame tags [] [] (line (CStr "") e2e4 (line (CStr "") c7c5 (leaf (CStr "")))).

(** Reference tables: one with the position after 1. e4, one with the
    starting position, one whose record for the position after 1. e4 has an
    empty code. *)
Definition book : list Opening :=
  [mkOpening "B00" "King's pawn opening" (e4_fen +:+ " b KQkq") "e4"].
Definition book_start : list Opening :=
  [mkOpening "A00" "Start position" (start_fen +:+ " w KQkq") ""].
Definition book_blank : list Opening :=
  [mkOpening "" "King's pawn opening" (e4_fen +:+ " b KQkq") "e4"].

(** 1. d4, bare and with the judgment of the scripted engine on it. *)
Definition game_d4 : Game Pos :=
  mkGame tags [] [] (line (CStr "") d2d4 (leaf (CStr ""))).
Definition game_d4_judged : Game Pos :=
  mkGame (<["Moves" := "1"]> tags) [] []
    (line CNone d2d4 (leaf (CJudgment (mkJudgment e2e4 30 40)))).

(** 1. e4 {good} (1. d4 {also}) 1... e5 (1... c5) with a NAG on e4. *)
Definition game_var : Game Pos :=
  mkGame tags [] []
    (mkNode (CStr "start") "" []
       [(e2e4, mkNode (CStr "good") "" [1%N]
                 [(e7e5, leaf (CStr "")); (c7c5, leaf (CStr "sharp"))]);
        (d2d4, leaf (CStr "also"))]).

(** An engine whose replies lack a key or that fails, depending on the
    position, and an engine that answers every search alike. Neither is
    the engine the examples pick by default: they are named where used. *)
Definition faulty_reply (p : Pos) : Res Reply :=
  if decide (p = []) then Ok (mkReply None (Some (Cp 30)))
  else if decide (p = [e2e4]) then Ok (mkReply (Some []) (Some (Cp 0)))
  else if decide (p = [d2d4]) then Ok (mkReply (Some [d7d5]) None)
  else if decide (p = [f2f3]) then Ok (mkReply (Some [e7e5]) (Some (Cp 40)))
  else if decide (p = [c7c5; f2f3]) then Ok (mkReply (Some [e2e4]) None)
  else if decide (p = [g1f3]) then Ok (mkReply (Some [d7d5]) (Some (Cp (-20))))
  else Raise EngineError.

Definition faulty_engine : Engine Pos := {|
  EngineState := nat;
  respond := λ n b _, (faulty_reply (pos b), S n)
|}.

Definition steady_engine : Engine Pos := {|
  EngineState := nat;
  respond := λ n _ _, (Ok (mkReply (Some [e2e4]) (Some (Cp 10))), S n)
|}.

Definition faulty_world (b : Board Pos) : @World Pos faulty_engine :=
  @mkWorld Pos faulty_engine b O [].

(** 1. e4 e5. *)
Definition game_e4_e5 : Game Pos :=
  mkGame tags [] [] (line (CStr "") e2e4 (line (CStr "") e7e5 (leaf (CStr "")))).

(** 1. e4 with the comment "good" after the move and the starting comment
    "kept" in front of it, as
    [game.add_variation(move, comment='good', starting_comment='kept')]
    builds it. *)
Definition game_started : Game Pos :=
  mkGame tags [] []
    (mkNode (CStr "") "" [] [(e2e4, mkNode (CStr "good") "kept" [] [])]).

(** 1. f3 e5 2. g4 c5, where Black had mate in one, with the judgment of
    the scripted engine on the last move and the opening ending at
    2. g4. *)
Definition game_fool_judged : Game Pos :=
  mkGame (<["Moves" := "1"]> tags) [] []
    (line CNone f2f3
       (line CNone e7e5
          (line CNone g2g4
             (line CNone c7c5
                (leaf (CJudgment (mkJudgment d8h4 (-9999) (-120)))))))).

End Sample.

(** ** chess_retriever.py *)

Module Retriever.

(** The two exceptions [decode] can raise. *)
Inductive error :=
| IndexError
| ValueError.

Inductive outcome (A : Type) :=
| Returns (a : A)
| Raises (e : error).
Arguments Returns {A} a.
Arguments Raises {A} e.

Definition then_ {A B} (x : outcome A) (k : A → outcome B) : outcome B :=
  match x with
  | Returns a => k a
  | Raises e => Raises e
  end.

Definition T : string :=
  "abcdefghijklmnopqrstuvwxyzABCDEFGHIJKLMNOPQRSTUVWXYZ0123456789!?{~}(^)[_]@#$,./&-*++=".

(** [t.index(c)] for a character [c]: the first position of [c], counted
    from [i], or [ValueError]. *)
Fixpoint index_from (c : Ascii.ascii) (t : string) (i : Z) : outcome Z :=
  match t with
  | EmptyString => Raises ValueError
  | String c' t' => if decide (c = c') then Returns i else index_from c t' (i + 1)
  end.

Definition index (t : string) (c : Ascii.ascii) : outcome Z := index_from c t 0.

(** [t[i]]: a negative index counts from the end. *)
Definition getitem (t : string) (i : Z) : outcome Ascii.ascii :=
  let j := if decide (i < 0) then i + Z.of_nat (String.length t) else i in
  if decide (0 ≤ j) then
    match String.get (Z.to_nat j) t with
    | Some c => Returns c
    | None => Raises IndexError
    end
  else Raises IndexError.

(** The dictionary [_] of one move, with the keys [decode] may set. *)
Record MoveDict := mkMoveDict {
  d_promotion : option string;
  d_drop : option string;
  d_from : option string;
  d_to : string
}.

Definition char (c : Ascii.ascii) : string := String c EmptyString.

(** The body of the loop of [decode] for the characters [n[i]] and
    [n[i + 1]]; [int(x / k)] of a float is the quotient rounded towards
    zero. *)
Definition decode_pair (a b : Ascii.ascii) : outcome MoveDict :=
  then_ (index T a) (λ o,
  then_ (index T b) (λ s,
  then_ (if decide (63 < s) then
           then_ (getitem "qnrbkp" (Z.quot (s - 64) 3)) (λ p,
           Returns (Some (char p),
                    o + (if decide (o < 16) then -8 else 8) + (s - 1) `mod` 3 - 1))
         else Returns (None, s)) (λ '(promotion, s),
  then_ (if decide (75 < o) then
           then_ (getitem "qnrbkp" (o - 79)) (λ p, Returns (Some (char p), None))
         else
           then_ (getitem T (o `mod` 8)) (λ f,
           Returns (None, Some (char f +:+ Py.str (Z.quot o 8 + 1)))))
        (λ '(drop, from),
  then_ (getitem T (s `mod` 8)) (λ f,
  Returns (mkMoveDict promotion drop from
             (char f +:+ Py.str (Z.quot s 8 + 1)))))))).

(** The loop [for i in range(0, w, 2)], on what is left of [n] from index
    [i] on; a last character without a partner fails on [n[i + 1]], after
    its own [T.index]. *)
Fixpoint decode_loop (n : string) : outcome (list MoveDict) :=
  match n with
  | EmptyString => Returns []
  | String a EmptyString => then_ (index T a) (λ _, Raises IndexError)
  | String a (String b rest) =>
      then_ (decode_pair a b) (λ d,
      then_ (decode_loop rest) (λ C, Returns (d :: C)))
  end.

(** [decode]: the list of all moves is built, its first element is
    returned. *)
Definition decode (n : string) : outcome MoveDict :=
  then_ (decode_loop n) (λ C,
    match C with
    | [] => Raises IndexError
    | d :: _ => Returns d
    end).

(** The name of the square with number [k], a1 being 0 and h8 63: the
    letter of its file and the number of its rank. *)
Definition square_name (k : nat) : string :=
  match String.get (k `mod` 8) "abcdefgh" with
  | Some f => char f +:+ pretty (k `div` 8 + 1)%nat
  | None => ""
  end.

(** The piece letters, in the order [decode] indexes them. *)
Definition piece (i : nat) : option string :=
  char <$> String.get i "qnrbkp".

(** The character that stands for the number [k] in a move list. *)
Definition code_of (k : nat) : Ascii.ascii :=
  default Ascii.zero (String.get k T).

#[global] Instance error_eq_dec : EqDecision error.
Proof. solve_decision. Defined.
#[global] Instance MoveDict_eq_dec : EqDecision MoveDict.
Proof. solve_decision. Defined.
#[global] Instance outcome_eq_dec `{EqDecision A} : EqDecision (outcome A).
Proof. solve_decision. Defined.

End Retriever.

(** * Properties *)

(** ** Scores *)

Lemma score_neg (s : Score) (m : Z) : score (neg s) m = - score s m.
Proof.
  destruct s as [n|n|]; simpl; [lia | | lia].
  destruct (decide (n = 0)) as [->|Hn]; simpl; [lia|].
  repeat case_decide; lia.
Qed.

(** The White point of view of a score is the score itself when White is
    to move and its opposite when Black is. *)
Lemma score_white (s : Score) (t : bool) (m : Z) :
  score (white (mkPovScore s t)) m = eval_absolute (score s m) t.
Proof.
  unfold white, pov, eval_absolute; simpl.
  destruct t; case_decide; try done.
  apply score_neg.
Qed.

(** ** Boards *)

Section BoardFacts.
Context {Position : Type} `{!Rules Position}.

Lemma pop_push (b : Board Position) (m : Move) : pop (push b m) = Ok (m, b).
Proof. by destruct b. Qed.

Lemma move_stack_push_all (ms : list Move) (b : Board Position) :
  move_stack (push_all b ms) = reverse ms ++ move_stack b.
Proof.
  revert b. induction ms as [|m ms IH]; intros b; [done|].
  cbn [push_all foldl]. change (foldl push (push b m) ms) with (push_all (push b m) ms).
  rewrite IH, reverse_cons, <- app_assoc. done.
Qed.

End BoardFacts.

(** ** judge_move *)

(** Run [judge_move] up to the comparison of the two moves, given the first
    reply, its variation and its score. *)
Ltac first_search Hr Hpv Hs :=
  unfold judge_move, bind, analyse, lift, first_pv_move, eval_numeric;
  rewrite Hr; simpl; rewrite Hpv, Hs; simpl; rewrite ?score_white.

Ltac first_search_in Hj Hr Hpv :=
  unfold judge_move, bind, analyse, lift, first_pv_move, eval_numeric in Hj;
  rewrite Hr in Hj; simpl in Hj; rewrite Hpv in Hj; simpl in Hj.

Section JudgeMove.
Context {Position : Type} `{!Rules Position} `{!Engine Position}.

Implicit Types (w : World) (played best : Move).

(** The played move is the engine's first choice: one search. *)
Lemma judge_move_same w played rep e1 rest s :
  respond (engine w) (board w) 22 = (Ok rep, e1) →
  reply_pv rep = Some (played :: rest) →
  reply_score rep = Some s →
  judge_move played w
  = (Ok (mkJudgment played (stored s (board w)) (stored s (board w))),
     mkWorld (board w) e1 (asked w [board w])).
Proof.
  intros Hr Hpv Hs. first_search Hr Hpv Hs.
  rewrite decide_True by done. done.
Qed.

(** The played move is another one: it is pushed, the new position is
    searched, and the move is taken back. *)
Lemma judge_move_other w played best rep e1 rest s rep' e2 s' :
  respond (engine w) (board w) 22 = (Ok rep, e1) →
  reply_pv rep = Some (best :: rest) →
  reply_score rep = Some s →
  played ≠ best →
  respond e1 (push (board w) played) 22 = (Ok rep', e2) →
  reply_score rep' = Some s' →
  judge_move played w
  = (Ok (mkJudgment best (stored s (board w))
           (stored s' (push (board w) played))),
     mkWorld (board w) e2 (asked w [board w; push (board w) played])).
Proof.
  intros Hr Hpv Hs Hne Hr' Hs'. first_search Hr Hpv Hs.
  rewrite decide_False by done.
  unfold board_push, modify; simpl. rewrite Hr'. simpl. rewrite Hs'. simpl.
  rewrite score_white.
  unfold board_pop; simpl.
  destruct (board w) as [p ms ps]; simpl.
  unfold ret, asked, stored; simpl. by rewrite <- app_assoc.
Qed.

(** Every return of [judge_move] is one of the two above. *)
Lemma judge_move_returns w played j w' :
  judge_move played w = (Ok j, w') →
  ∃ rep e1 rest s,
    respond (engine w) (board w) 22 = (Ok rep, e1) ∧
    reply_pv rep = Some (bestmove j :: rest) ∧
    reply_score rep = Some s ∧
    besteval j = stored s (board w) ∧
    ((played = bestmove j ∧ playedeval j = besteval j ∧
      w' = mkWorld (board w) e1 (asked w [board w]))
     ∨
     (played ≠ bestmove j ∧
      ∃ rep' e2 s',
        respond e1 (push (board w) played) 22 = (Ok rep', e2) ∧
        reply_score rep' = Some s' ∧
        playedeval j = stored s' (push (board w) played) ∧
        w' = mkWorld (board w) e2 (asked w [board w; push (board w) played]))).
Proof.
  intros Hj.
  destruct (respond (engine w) (board w) 22) as [[rep|e] e1] eqn:Hr;
    [|unfold judge_move, bind, analyse in Hj; rewrite Hr in Hj; done].
  destruct (reply_pv rep) as [[|best rest]|] eqn:Hpv;
    [first_search_in Hj Hr Hpv; done| |first_search_in Hj Hr Hpv; done].
  destruct (reply_score rep) as [s|] eqn:Hs;
    [|first_search_in Hj Hr Hpv; rewrite Hs in Hj; done].
  destruct (decide (played = best)) as [->|Hne].
  - rewrite (judge_move_same _ _ _ _ _ _ Hr Hpv Hs) in Hj.
    injection Hj as <- <-. exists rep, e1, rest, s. simpl. split_and!; try done.
    left. done.
  - destruct (respond e1 (push (board w) played) 22) as [[rep'|e] e2] eqn:Hr'.
    + destruct (reply_score rep') as [s'|] eqn:Hs'.
      * rewrite (judge_move_other _ _ _ _ _ _ _ _ _ _ Hr Hpv Hs Hne Hr' Hs') in Hj.
        injection Hj as <- <-. exists rep, e1, rest, s. simpl. split_and!; try done.
        right. split; [done|]. by exists rep', e2, s'.
      * first_search_in Hj Hr Hpv. rewrite Hs in Hj; simpl in Hj.
        rewrite decide_False in Hj by done.
        unfold board_push, modify in Hj; simpl in Hj.
        change (mkBoard (step (pos (board w)) played)
                  (played :: move_stack (board w))
                  (pos (board w) :: stack (board w)))
          with (push (board w) played) in Hj.
        rewrite Hr' in Hj. simpl in Hj. rewrite Hs' in Hj. done.
    + first_search_in Hj Hr Hpv. rewrite Hs in Hj; simpl in Hj.
      rewrite decide_False in Hj by done.
      unfold board_push, modify in Hj; simpl in Hj.
      change (mkBoard (step (pos (board w)) played)
                (played :: move_stack (board w))
                (pos (board w) :: stack (board w)))
        with (push (board w) played) in Hj.
      rewrite Hr' in Hj. done.
Qed.

End JudgeMove.

Section JudgeMoveClaims.
Context {Position : Type} `{!Rules Position} `{!Engine Position}.

Implicit Types (w : World) (played best : Move).

(** C7. Whenever the played move is the best move the engine reports (the
    first move of the variation of its reply), [judge_move] returns a
    judgment whose [playedeval] equals its [besteval], and the engine has
    been asked for exactly one search, the one of the caller's board. *)
Theorem judge_move_best_move_played w played rep e1 rest s :
  respond (engine w) (board w) 22 = (Ok rep, e1) →
  reply_pv rep = Some (played :: rest) →
  reply_score rep = Some s →
  ∃ j w',
    judge_move played w = (Ok j, w') ∧
    bestmove j = played ∧
    playedeval j = besteval j ∧
    engine w' = e1 ∧
    queries w' = queries w ++ [(board w, 22)].
Proof.
  intros Hr Hpv Hs. eexists _, _. split.
  - by apply (judge_move_same w played rep e1 rest s).
  - done.
Qed.

(** C9. When [judge_move] returns, the caller's board is as it was before
    the call; and where the played move differs from the best move and the
    engine answers both searches, the move is pushed (the second search is
    the one of the pushed board), the call returns, and the board is back
    at the caller's state. *)
Theorem judge_move_board_unchanged w played :
  (∀ j w', judge_move played w = (Ok j, w') → board w' = board w) ∧
  (∀ rep e1 best rest s rep' e2 s',
     respond (engine w) (board w) 22 = (Ok rep, e1) →
     reply_pv rep = Some (best :: rest) →
     reply_score rep = Some s →
     played ≠ best →
     respond e1 (push (board w) played) 22 = (Ok rep', e2) →
     reply_score rep' = Some s' →
     ∃ j w',
       judge_move played w = (Ok j, w') ∧
       queries w' = queries w ++ [(board w, 22); (push (board w) played, 22)] ∧
       board w' = board w).
Proof.
  split.
  - intros j w' Hj.
    destruct (judge_move_returns _ _ _ _ Hj)
      as (rep & e1 & rest & s & _ & _ & _ & _ & [(_ & _ & ->)|(_ & H)]);
      [done|].
    destruct H as (rep' & e2 & s' & _ & _ & _ & ->). done.
  - intros rep e1 best rest s rep' e2 s' Hr Hpv Hs Hne Hr' Hs'.
    eexists _, _. split.
    + by apply (judge_move_other w played best rep e1 rest s rep' e2 s').
    + done.
Qed.

(** The evaluations [judge_move] stores are taken from White's point of
    view: [besteval] is the score the engine gives
    the side to move of the caller's board, left as it is when White is to
    move there and negated when Black is, and [playedeval], after a second
    search, is the same for the board with the played move pushed. The
    score of a forced mate in [n] moves is [10000 - n] for the side that
    mates and [-10000 - n] (with [n <= 0]) for the side that is mated,
    10000 only once mate is given; within 10000 moves of mate it stays
    between -10000 and 10000. *)
Theorem judge_move_evals_from_white w played j w' :
  judge_move played w = (Ok j, w') →
  (∃ rep e1 s,
     respond (engine w) (board w) 22 = (Ok rep, e1) ∧
     reply_score rep = Some s ∧
     besteval j = eval_absolute (score s 10000) (turn (pos (board w))) ∧
     (played ≠ bestmove j →
      ∃ rep' e2 s',
        respond e1 (push (board w) played) 22 = (Ok rep', e2) ∧
        reply_score rep' = Some s' ∧
        playedeval j
        = eval_absolute (score s' 10000) (turn (pos (push (board w) played)))))
  ∧ (∀ x, eval_absolute x true = x ∧ eval_absolute x false = - x)
  ∧ (∀ n, 0 < n → score (Mate n) 10000 = 10000 - n)
  ∧ (∀ n, n ≤ 0 → score (Mate n) 10000 = - 10000 - n)
  ∧ score MateGiven 10000 = 10000
  ∧ (∀ n, - 10000 ≤ n ≤ 10000 → - 10000 ≤ score (Mate n) 10000 ≤ 10000).
Proof.
  intros Hj. split_and!.
  - destruct (judge_move_returns _ _ _ _ Hj)
      as (rep & e1 & rest & s & Hr & _ & Hs & Hb & Hcase).
    exists rep, e1, s. split_and!; try done.
    intros Hne. destruct Hcase as [(? & _)|(_ & rep' & e2 & s' & ? & ? & ? & _)];
      [done|].
    by exists rep', e2, s'.
  - done.
  - intros n Hn. simpl. by rewrite decide_True.
  - intros n Hn. simpl. rewrite decide_False; lia.
  - done.
  - intros n Hn. simpl. case_decide; lia.
Qed.

End JudgeMoveClaims.

(** C7 on the starting position, where the scripted engine proposes 1. e4
    and 1. e4 is played. *)
Lemma judge_move_best_move_played_witness :
  ∃ j w',
    judge_move Sample.e2e4 (Sample.world Sample.start_board) = (Ok j, w') ∧
    bestmove j = Sample.e2e4 ∧
    playedeval j = besteval j ∧
    engine w' = 1%nat ∧
    queries w' = [(Sample.start_board, 22)].
Proof.
  apply (judge_move_best_move_played (Sample.world Sample.start_board)
           Sample.e2e4
           (mkReply (Some [Sample.e2e4; Sample.e7e5]) (Some (Cp 30)))
           1%nat [Sample.e7e5] (Cp 30));
    reflexivity.
Defined.

(** C9 after 1. e4, where 1... c5 is played and the engine prefers
    1... e5. *)
Lemma judge_move_board_unchanged_witness :
  board (snd (judge_move Sample.c7c5 (Sample.world (Sample.after [Sample.e2e4]))))
  = Sample.after [Sample.e2e4]
  ∧ ∃ j w',
      judge_move Sample.c7c5 (Sample.world (Sample.after [Sample.e2e4]))
      = (Ok j, w') ∧
      queries w'
      = [(Sample.after [Sample.e2e4], 22);
         (Sample.after [Sample.e2e4; Sample.c7c5], 22)] ∧
      board w' = Sample.after [Sample.e2e4].
Proof.
  split.
  - eapply (proj1 (judge_move_board_unchanged
                     (Sample.world (Sample.after [Sample.e2e4])) Sample.c7c5)).
    vm_compute. reflexivity.
  - apply (proj2 (judge_move_board_unchanged
                    (Sample.world (Sample.after [Sample.e2e4])) Sample.c7c5)
             (mkReply (Some [Sample.e7e5; Sample.g1f3]) (Some (Cp (-35))))
             1%nat Sample.e7e5 [Sample.g1f3] (Cp (-35))
             (mkReply (Some [Sample.g1f3]) (Some (Cp 45))) 2%nat (Cp 45));
      try reflexivity.
    vm_compute. congruence.
Defined.

(** After 1. e4, where 1... c5 is judged: Black is to move on the caller's
    board, the engine gives Black -35 there and White 45 after 1... c5, and
    both are stored from White's side, 35 and 45. *)
Lemma judge_move_evals_from_white_witness :
  ∃ rep e1 s,
    respond 0%nat (Sample.after [Sample.e2e4]) 22 = (Ok rep, e1) ∧
    reply_score rep = Some s ∧
    35 = eval_absolute (score s 10000) false ∧
    (Sample.c7c5 ≠ Sample.e7e5 →
     ∃ rep' e2 s',
       respond e1 (Sample.after [Sample.e2e4; Sample.c7c5]) 22 = (Ok rep', e2) ∧
       reply_score rep' = Some s' ∧
       45 = eval_absolute (score s' 10000) true).
Proof.
  exact (proj1 (judge_move_evals_from_white
                  (Sample.world (Sample.after [Sample.e2e4])) Sample.c7c5
                  (mkJudgment Sample.e7e5 35 45)
                  (mkWorld (Sample.after [Sample.e2e4]) 2%nat
                     [(Sample.after [Sample.e2e4], 22);
                      (Sample.after [Sample.e2e4; Sample.c7c5], 22)])
                  eq_refl)).
Defined.

(** C1. The evaluations [judge_move] stores are not relative to the side
    to move, and no sign is inverted where the comment in front of the
    second [eval_numeric] says one is: [eval_numeric] takes every score
    from White's side. After 1. e4 Black is to move with a score of -35 and
    plays 1... c5, after which White has 45: the judgment holds 35 and 45,
    where the side to move has -35 and, after its move, -45. After
    1. f3 e5 2. g4 Black is to move and mates in one; for the side to move
    that is the value 10000 of the description, and the judgment holds
    -9999. *)
Lemma judge_move_evals_not_mover_relative :
  (let w := Sample.world (Sample.after [Sample.f2f3; Sample.e7e5; Sample.g2g4]) in
   turn (pos (board w)) = false ∧
   respond (engine w) (board w) 22
   = (Ok (mkReply (Some [Sample.d8h4]) (Some (Mate 1))), 1%nat) ∧
   fst (judge_move Sample.d8h4 w)
   = Ok (mkJudgment Sample.d8h4 (-9999) (-9999)) ∧
   mover_relative (Mate 1) = 10000)
  ∧
  (let w := Sample.world (Sample.after [Sample.e2e4]) in
   turn (pos (board w)) = false ∧
   respond (engine w) (board w) 22
   = (Ok (mkReply (Some [Sample.e7e5; Sample.g1f3]) (Some (Cp (-35)))), 1%nat) ∧
   fst (judge_move Sample.c7c5 w) = Ok (mkJudgment Sample.e7e5 35 45) ∧
   mover_relative (Cp (-35)) = -35).
Proof. vm_compute. done. Qed.

(** ** truncate_pv *)

Section TruncatePv.
Context {Position : Type} `{!Rules Position}.

Implicit Types (b : Board Position) (pv : list Move).

Lemma push_legal_cons m pv b :
  push_legal (m :: pv) b
  = if is_legal (pos b) m then push_legal pv (push b m)
    else (Raise AssertionError, b).
Proof.
  cbn [push_legal]. unfold bind, get, modify, raise.
  by destruct (is_legal (pos b) m).
Qed.

Lemma legal_pv_cons b m pv :
  legal_pv b (m :: pv) ↔ is_legal (pos b) m = true ∧ legal_pv (push b m) pv.
Proof.
  unfold legal_pv. split.
  - intros H. split; [exact (H O m eq_refl)|].
    intros i m' Hi. exact (H (S i) m' Hi).
  - intros [H0 H] [|i] m' Hi; simpl in *.
    + by injection Hi as <-.
    + by apply H.
Qed.

Lemma push_legal_legal pv : ∀ b,
  legal_pv b pv → push_legal pv b = (Ok tt, push_all b pv).
Proof.
  induction pv as [|m pv IH]; intros b Hl; [done|].
  apply legal_pv_cons in Hl as [H0 Hl].
  rewrite push_legal_cons, H0. by apply IH.
Qed.

Lemma push_legal_illegal pv : ∀ b,
  illegal_pv b pv → fst (push_legal pv b) = Raise AssertionError.
Proof.
  induction pv as [|m pv IH]; intros b (i & m' & Hi & Hbad); [done|].
  rewrite push_legal_cons.
  destruct (is_legal (pos b) m) eqn:H0; [|done].
  apply IH. destruct i as [|i]; simpl in *.
  - injection Hi as <-. congruence.
  - by exists i, m'.
Qed.

Lemma push_legal_pushed pv : ∀ b u b',
  push_legal pv b = (Ok u, b') → b' = push_all b pv.
Proof.
  induction pv as [|m pv IH]; intros b u b' H.
  - by injection H as _ <-.
  - rewrite push_legal_cons in H.
    destruct (is_legal (pos b) m); [|done]. by apply IH in H.
Qed.

Lemma truncate_pv_legal pv b :
  legal_pv b pv →
  truncate_pv pv b
  = (Ok (if is_game_over_claim_draw (push_all b pv) then pv
         else take SHORT_PV_LEN pv),
     push_all b pv).
Proof.
  intros Hl. unfold truncate_pv, bind. rewrite (push_legal_legal _ _ Hl).
  unfold get. by destruct (is_game_over_claim_draw (push_all b pv)).
Qed.

(** C5. For a variation every move of which is legal where it is applied,
    [truncate_pv] returns the variation as it is when the board with all
    its moves pushed is over (draws counted once they can be claimed), and
    its first 10 half-moves otherwise, which are exactly 10 when the
    variation has that many; for a variation with a move that is illegal
    where it would be applied, it raises [AssertionError], the error of
    an illegal move. *)
Theorem truncate_pv_result b pv :
  (legal_pv b pv → is_game_over_claim_draw (push_all b pv) = true →
   fst (truncate_pv pv b) = Ok pv)
  ∧ (legal_pv b pv → is_game_over_claim_draw (push_all b pv) = false →
     ∃ r, fst (truncate_pv pv b) = Ok r ∧ r = take 10 pv ∧
          ((10 ≤ length pv)%nat → length r = 10%nat))
  ∧ (illegal_pv b pv → fst (truncate_pv pv b) = Raise AssertionError).
Proof.
  split_and!.
  - intros Hl Hover. rewrite (truncate_pv_legal _ _ Hl), Hover. done.
  - intros Hl Hover. rewrite (truncate_pv_legal _ _ Hl), Hover.
    eexists; split_and!; [done..|].
    intros Hlen. rewrite length_take. unfold SHORT_PV_LEN. lia.
  - intros Hbad. unfold truncate_pv, bind.
    pose proof (push_legal_illegal _ _ Hbad) as H.
    destruct (push_legal pv b) as [[u|e] b']; simpl in H; [done|].
    by injection H as ->.
Qed.

(** The two cases are all there is. *)
Lemma legal_or_illegal pv : ∀ b, legal_pv b pv ∨ illegal_pv b pv.
Proof.
  induction pv as [|m pv IH]; intros b.
  - left. by intros i m Hi.
  - destruct (is_legal (pos b) m) eqn:H0.
    + destruct (IH (push b m)) as [Hl|(i & m' & Hi & Hbad)].
      * left. by apply legal_pv_cons.
      * right. by exists (S i), m'.
    + right. by exists O, m.
Qed.

(** C10. When [truncate_pv] returns, the board the caller passed holds all
    the moves of the variation: it is the board with the variation pushed,
    its move stack is the caller's with the moves on top, and so it is not
    the board the caller supplied unless the variation was empty. *)
Theorem truncate_pv_leaves_moves_pushed b pv r b' :
  truncate_pv pv b = (Ok r, b') →
  b' = push_all b pv ∧
  move_stack b' = reverse pv ++ move_stack b ∧
  (pv ≠ [] → b' ≠ b).
Proof.
  intros H. unfold truncate_pv, bind in H.
  destruct (push_legal pv b) as [[u|e] b1] eqn:Hp; [|done].
  apply push_legal_pushed in Hp as ->.
  unfold get in H.
  assert (b' = push_all b pv) as ->.
  { by destruct (is_game_over_claim_draw (push_all b pv)); injection H as _ <-. }
  split_and!; [done|apply move_stack_push_all|].
  intros Hne Heq. apply (f_equal (λ x, length (move_stack x))) in Heq.
  rewrite move_stack_push_all, length_app, length_reverse in Heq.
  destruct pv; [done|]. simpl in Heq. lia.
Qed.

End TruncatePv.

(** C5 on fool's mate, which ends the game, on 1. e4 e5, which does not,
    and on 1. e4 d4, whose second move is not legal. *)
Lemma truncate_pv_result_witness :
  fst (truncate_pv [Sample.f2f3; Sample.e7e5; Sample.g2g4; Sample.d8h4]
         Sample.start_board)
  = Ok [Sample.f2f3; Sample.e7e5; Sample.g2g4; Sample.d8h4]
  ∧ (∃ r, fst (truncate_pv [Sample.e2e4; Sample.e7e5] Sample.start_board) = Ok r ∧
          r = take 10 [Sample.e2e4; Sample.e7e5] ∧
          ((10 ≤ length [Sample.e2e4; Sample.e7e5])%nat → length r = 10%nat))
  ∧ fst (truncate_pv [Sample.e2e4; Sample.d2d4] Sample.start_board)
    = Raise AssertionError.
Proof.
  split_and!.
  - apply (proj1 (truncate_pv_result Sample.start_board
                    [Sample.f2f3; Sample.e7e5; Sample.g2g4; Sample.d8h4])).
    + intros [|[|[|[|[|i]]]]] m Hi; simpl in Hi; try discriminate;
        injection Hi as <-; vm_compute; reflexivity.
    + vm_compute. reflexivity.
  - apply (proj1 (proj2 (truncate_pv_result Sample.start_board
                           [Sample.e2e4; Sample.e7e5]))).
    + intros [|[|[|i]]] m Hi; simpl in Hi; try discriminate;
        injection Hi as <-; vm_compute; reflexivity.
    + vm_compute. reflexivity.
  - apply (proj2 (proj2 (truncate_pv_result Sample.start_board
                           [Sample.e2e4; Sample.d2d4]))).
    exists 1%nat, Sample.d2d4. split; vm_compute; reflexivity.
Defined.

(** C10 on 1. e4 e5 pushed on the starting board. *)
Lemma truncate_pv_leaves_moves_pushed_witness :
  Sample.after [Sample.e2e4; Sample.e7e5]
  = push_all Sample.start_board [Sample.e2e4; Sample.e7e5] ∧
  move_stack (Sample.after [Sample.e2e4; Sample.e7e5])
  = reverse [Sample.e2e4; Sample.e7e5] ++ move_stack Sample.start_board ∧
  ([Sample.e2e4; Sample.e7e5] ≠ [] →
   Sample.after [Sample.e2e4; Sample.e7e5] ≠ Sample.start_board).
Proof.
  apply (truncate_pv_leaves_moves_pushed Sample.start_board
           [Sample.e2e4; Sample.e7e5] [Sample.e2e4; Sample.e7e5]
           (Sample.after [Sample.e2e4; Sample.e7e5])).
  vm_compute. reflexivity.
Defined.

(** ** cpl, acpl and add_acpl *)

Lemma acpl_nonempty (x : Z) (l : list Z) :
  acpl (x :: l)
  = Ok (PFloat (nearest_double (sum (x :: l)) (Pos.of_nat (length (x :: l))))).
Proof.
  unfold acpl, truediv, len. rewrite decide_False by (simpl length; lia).
  do 3 f_equal.
  - rewrite Z.sgn_pos by (simpl length; lia). lia.
  - rewrite Z.abs_eq by lia. simpl length. lia.
Qed.

Lemma acpl_returns (l : list Z) : ∃ v, acpl l = Ok v.
Proof. destruct l; [by exists (PInt 0)|]. rewrite acpl_nonempty. eauto. Qed.

Section AddAcpl.
Context {Position : Type} `{!Rules Position}.

Implicit Types (game : Game Position) (r d k : nat).

Lemma walked_same r : walked r r = [].
Proof. unfold walked. by rewrite Nat.sub_diag. Qed.

Lemma walked_succ r d : (r ≤ d)%nat → walked r (S d) = S d :: walked r d.
Proof.
  intros Hrd. unfold walked.
  replace (S d - r)%nat with (S (d - r)) by lia.
  rewrite seq_S, reverse_app. simpl. do 2 f_equal. lia.
Qed.

Lemma elem_of_walked r d k : k ∈ walked r d ↔ (r < k ≤ d)%nat.
Proof. unfold walked. rewrite elem_of_reverse, elem_of_seq. lia. Qed.

Lemma losses_same game white r : losses game white r r = [].
Proof. unfold losses. by rewrite walked_same. Qed.

Lemma losses_succ game white r d x :
  (r ≤ d)%nat → loss_at game (S d) = Some x →
  losses game white r (S d)
  = if decide (white_moved game (S d) = white)
    then x :: losses game white r d else losses game white r d.
Proof.
  intros Hrd Hx. unfold losses. rewrite walked_succ by done.
  rewrite filter_cons. case_decide; [|done]. simpl. by rewrite Hx.
Qed.

(** The walk of [add_acpl] collects the losses of the two sides. *)
Lemma acpl_walk_losses game r : ∀ d white_cpl black_cpl,
  (r ≤ d)%nat →
  (∀ k, (r < k ≤ d)%nat → is_Some (loss_at game k)) →
  acpl_walk game r d white_cpl black_cpl
  = Ok (white_cpl ++ losses game true r d, black_cpl ++ losses game false r d).
Proof.
  induction d as [|d IH]; intros wl bl Hrd Hj.
  - assert (r = O) as -> by lia. simpl.
    by rewrite !losses_same, !app_nil_r.
  - destruct (decide (S d = r)) as [<-|Hne].
    + cbn [acpl_walk]. rewrite decide_True by done.
      by rewrite !losses_same, !app_nil_r.
    + cbn [acpl_walk]. rewrite decide_False by done.
      destruct (Hj (S d)) as [x Hx]; [lia|].
      pose proof Hx as Hx'. unfold loss_at in Hx'.
      destruct (node_at (S d) (root game)) as [node|] eqn:Hn; [|done].
      simpl in Hx'. destruct (comment node) as [| |j] eqn:Hc; try done.
      injection Hx' as <-. unfold judgment_delta.
      assert (r ≤ d)%nat as Hrd' by lia.
      rewrite !(losses_succ _ _ _ _ _ Hrd' Hx).
      unfold white_moved, cpl, MAX_CPL.
      destruct (turn (pos (board_at game (S d)))); simpl.
      * rewrite IH; [|lia|intros; apply Hj; lia]. by rewrite <- app_assoc.
      * rewrite IH; [|lia|intros; apply Hj; lia]. by rewrite <- app_assoc.
Qed.

Lemma elem_of_losses game white r d x :
  x ∈ losses game white r d →
  ∃ k j,
    (r < k ≤ d)%nat ∧
    comment <$> node_at k (root game) = Some (CJudgment j) ∧
    turn (pos (board_at game k)) = negb white ∧
    x = Z.min (besteval j - playedeval j) 2000.
Proof.
  unfold losses. rewrite list_elem_of_omap. intros (k & Hk & Hx).
  apply list_elem_of_filter in Hk as [Hside Hk].
  apply elem_of_walked in Hk.
  unfold loss_at in Hx.
  destruct (comment <$> node_at k (root game)) as [[| |j]|] eqn:Hc; try done.
  injection Hx as <-. exists k, j. split_and!; try done; try lia.
  unfold white_moved in Hside. rewrite <- Hside. by rewrite negb_involutive.
Qed.

End AddAcpl.

Section AddAcplClaims.
Context {Position : Type} `{!Rules Position}.

Implicit Types (game : Game Position) (r d k : nat).


(** On the way from the end of the game to [root_node], [add_acpl]
    appends for every node the delta [besteval -
    playedeval] of its judgment, cut off above at 2000 and not bounded
    below, to the list of the side that is not to move at the node, the
    side that made the move into it; the deltas 100, 300 and 2500 become
    100, 300 and 2000, whose average rounds to 800. *)
Theorem add_acpl_collects_losses game r :
  (r ≤ game_end game)%nat →
  (∀ k, (r < k ≤ game_end game)%nat → is_Some (loss_at game k)) →
  acpl_walk game r (game_end game) [] []
  = Ok (losses game true r (game_end game), losses game false r (game_end game))
  ∧ (∀ white x,
       x ∈ losses game white r (game_end game) →
       ∃ k j,
         (r < k ≤ game_end game)%nat ∧
         comment <$> node_at k (root game) = Some (CJudgment j) ∧
         turn (pos (board_at game k)) = negb white ∧
         x = Z.min (besteval j - playedeval j) 2000 ∧
         x ≤ 2000)
  ∧ cpl <$> [100; 300; 2500] = [100; 300; 2000]
  ∧ ∃ v, acpl (cpl <$> [100; 300; 2500]) = Ok v ∧ round v = 800.
Proof.
  intros Hr Hj. split_and!.
  - by rewrite acpl_walk_losses.
  - intros white x Hx.
    destruct (elem_of_losses _ _ _ _ _ Hx) as (k & j & ? & ? & ? & ->).
    exists k, j. split_and!; try done; lia.
  - done.
  - eexists. split; [reflexivity|]. vm_compute. reflexivity.
Qed.


End AddAcplClaims.

(** The walk on 1. d4 with its judgment. *)
Lemma add_acpl_collects_losses_witness :
  acpl_walk Sample.game_d4_judged 0 (game_end Sample.game_d4_judged) [] []
  = Ok (losses Sample.game_d4_judged true 0 (game_end Sample.game_d4_judged),
        losses Sample.game_d4_judged false 0 (game_end Sample.game_d4_judged))
  ∧ (∀ white x,
       x ∈ losses Sample.game_d4_judged white 0 (game_end Sample.game_d4_judged) →
       ∃ k j,
         (0 < k ≤ game_end Sample.game_d4_judged)%nat ∧
         comment <$> node_at k (root Sample.game_d4_judged) = Some (CJudgment j) ∧
         turn (pos (board_at Sample.game_d4_judged k)) = negb white ∧
         x = Z.min (besteval j - playedeval j) 2000 ∧
         x ≤ 2000)
  ∧ cpl <$> [100; 300; 2500] = [100; 300; 2000]
  ∧ ∃ v, acpl (cpl <$> [100; 300; 2500]) = Ok v ∧ round v = 800.
Proof.
  apply (add_acpl_collects_losses Sample.game_d4_judged 0).
  - vm_compute. lia.
  - intros k Hk. change (game_end Sample.game_d4_judged) with 1%nat in Hk.
    assert (k = 1%nat) as -> by lia. vm_compute. eauto.
Defined.

(** A loss below 0 on a move of White. 1. d4 is played where the scripted
    engine prefers 1. e4 and gives 30; after 1. d4 its search gives White 40. The
    judgment of the walk of [analyze_game] holds these two values, and
    [add_acpl] appends their difference, -10, to White's list and writes it
    as White's average. *)
Lemma add_acpl_appends_negative_loss :
  fst (judge_walk 0 1
         (cl_game (classify_opening [] (clean_game Sample.game_d4)))
         (mkSession 0%nat []))
  = Ok Sample.game_d4_judged
  ∧ acpl_walk Sample.game_d4_judged 0 (game_end Sample.game_d4_judged) [] []
    = Ok ([-10], [])
  ∧ ∃ game', add_acpl Sample.game_d4_judged 0 = Ok game' ∧
             headers game' !! "WhiteACPL" = Some "-10".
Proof.
  split_and!; [vm_compute; reflexivity..|].
  eexists. split; [reflexivity|]. vm_compute. reflexivity.
Qed.

(** The whole of [analyze_game] on 1. e4 c5 with an empty table: 1. e4 is
    the engine's choice and costs nothing; 1... c5 is judged 35 before and
    45 after, both from White's side, and Black's average is written as
    their difference. *)
Example analyze_game_sicilian :
  ∃ game' s',
    analyze_game [] Sample.game2 (mkSession 0%nat []) = (Ok game', s') ∧
    headers game' !! "WhiteACPL" = Some "0" ∧
    headers game' !! "BlackACPL" = Some "-10" ∧
    headers game' !! "Moves" = Some "2" ∧
    length (s_queries s') = 3%nat.
Proof. eexists _, _. split; [vm_compute; reflexivity|]. vm_compute. done. Qed.

(** C2. The loss [add_acpl] appends for a move of Black is the loss of
    that move with its sign changed, and no ceiling holds for it: the two
    values of a judgment are White's, so for a move of Black [besteval -
    playedeval] is below 0 whenever the move loses something, and [cpl]
    cuts off above only. In 1. e4 c5 the engine has 1... e5 at 35 and
    1... c5 at 45 for White, a loss of 10 for Black, and [analyze_game]
    writes "-10" as Black's average. After 1. f3 e5 2. g4 Black mates in
    one and plays 2... c5, after which Black has -120: the judgment holds
    -9999 and -120, [add_acpl] appends -9879 to Black's list, where the
    loss is 9879 and [cpl] makes 2000 of it, and writes "-9879" as Black's
    average. *)
Theorem add_acpl_negates_black_loss :
  (∃ game' s',
     analyze_game [] Sample.game2 (mkSession 0%nat []) = (Ok game', s') ∧
     comment <$> node_at 2 (root game')
     = Some (CJudgment (mkJudgment Sample.e7e5 35 45)) ∧
     turn (pos (board_at game' 2)) = true ∧
     headers game' !! "WhiteACPL" = Some "0" ∧
     headers game' !! "BlackACPL" = Some "-10")
  ∧ fst (judge_move Sample.c7c5
           (Sample.world
              (Sample.after [Sample.f2f3; Sample.e7e5; Sample.g2g4])))
    = Ok (mkJudgment Sample.d8h4 (-9999) (-120))
  ∧ turn (pos (board_at Sample.game_fool_judged 4)) = true
  ∧ acpl_walk Sample.game_fool_judged 3
      (game_end Sample.game_fool_judged) [] []
    = Ok ([], [-9879])
  ∧ cpl (- 9879) = - 9879
  ∧ cpl 9879 = 2000
  ∧ ∃ game',
      add_acpl Sample.game_fool_judged 3 = Ok game' ∧
      headers game' !! "WhiteACPL" = Some "0" ∧
      headers game' !! "BlackACPL" = Some "-9879".
Proof.
  split_and!.
  - eexists _, _. split; [vm_compute; reflexivity|]. vm_compute. done.
  - vm_compute. reflexivity.
  - vm_compute. reflexivity.
  - vm_compute. reflexivity.
  - vm_compute. reflexivity.
  - vm_compute. reflexivity.
  - eexists. split; [vm_compute; reflexivity|]. vm_compute. done.
Qed.


(** ** Main lines *)

Lemma end_depth_node_at (t : GameNode) :
  ∃ node, node_at (end_depth t) t = Some node ∧ variations node = [].
Proof.
  remember (end_depth t) as n eqn:Hn. revert t Hn.
  induction n as [|n IH]; intros [c sc ns [|[m v] rest]] Hn; simpl in Hn; try done.
  - by eexists.
  - injection Hn as ->. simpl. apply IH. done.
Qed.

Lemma linearize_idemp (t : GameNode) : linearize (linearize t) = linearize t.
Proof.
  remember (end_depth t) as n eqn:Hn. revert t Hn.
  induction n as [|n IH]; intros [c sc ns [|[m v] rest]] Hn; simpl in Hn; try done.
  injection Hn as ->. simpl. do 3 f_equal. by apply IH.
Qed.

Lemma stripped_linearize (t : GameNode) : stripped (linearize t).
Proof.
  remember (end_depth t) as n eqn:Hn. revert t Hn.
  induction n as [|n IH]; intros [c sc ns [|[m v] rest]] Hn; simpl in Hn; try done.
  injection Hn as ->. simpl. split_and!; try done. by apply IH.
Qed.

Lemma mainline_moves_linearize (t : GameNode) :
  mainline_moves (linearize t) = mainline_moves t.
Proof.
  remember (end_depth t) as n eqn:Hn. revert t Hn.
  induction n as [|n IH]; intros [c sc ns [|[m v] rest]] Hn; simpl in Hn; try done.
  injection Hn as ->. simpl. f_equal. by apply IH.
Qed.

(** ** clean_game *)

Lemma skipn_delete {A} (l : list A) : ∀ i, skipn i (delete i l) = skipn (S i) l.
Proof.
  induction l as [|x l IH]; intros [|i]; simpl; done.
Qed.

Lemma remove_side_variations_cons {A} (x : A) : ∀ i rest,
  remove_side_variations i (x :: rest) = x :: skipn i rest.
Proof.
  induction i as [|i IH]; intros rest; [done|].
  cbn [remove_side_variations]. rewrite decide_False by done.
  simpl. rewrite IH. by rewrite skipn_delete.
Qed.

(** Of the continuations of a node the loop keeps the first. *)
Lemma strip_variations_take {A} (vs : list A) : strip_variations vs = take 1 vs.
Proof.
  destruct vs as [|x rest]; [done|].
  change (strip_variations (x :: rest))
    with (remove_side_variations (length rest) (x :: rest)).
  rewrite remove_side_variations_cons, drop_all. done.
Qed.

Lemma clean_walk_cons c sc ns m rest : ∀ d v,
  clean_walk (S d) (mkNode c sc ns ((m, v) :: rest))
  = clean_node (mkNode c sc ns ((m, clean_walk d v) :: rest)).
Proof.
  induction d as [|d IH]; intros v; [done|].
  change (clean_walk (S (S d)) (mkNode c sc ns ((m, v) :: rest)))
    with (clean_walk (S d)
            (mkNode c sc ns ((m, update_at (S d) clean_node v) :: rest))).
  by rewrite IH.
Qed.

(** The walk from the end of the game to the root leaves the main line,
    without comments and NAGs. *)
Lemma clean_walk_linearize (t : GameNode) :
  clean_walk (end_depth t) t = linearize t.
Proof.
  remember (end_depth t) as n eqn:Hn. revert t Hn.
  induction n as [|n IH]; intros [c sc ns [|[m v] rest]] Hn; simpl in Hn; try done.
  injection Hn as ->. rewrite clean_walk_cons, IH by done.
  unfold clean_node. simpl. by rewrite strip_variations_take.
Qed.

Section CleanGame.
Context {Position : Type} `{!Rules Position}.

(** [clean_game] applied twice gives what it gives applied once; in its
    result the [comment] of every node is [None] and its NAGs are gone,
    every node has exactly one continuation except the end node, which has
    none, the line is the main line of the game, and the headers (with the
    recorded errors and the starting position) are those of the game. *)
Theorem clean_game_idempotent (game : Game Position) :
  clean_game (clean_game game) = clean_game game
  ∧ stripped (root (clean_game game))
  ∧ mainline_moves (root (clean_game game)) = mainline_moves (root game)
  ∧ headers (clean_game game) = headers game
  ∧ errors (clean_game game) = errors game
  ∧ setup (clean_game game) = setup game.
Proof.
  assert (root (clean_game game) = linearize (root game)) as Hroot.
  { unfold clean_game, game_end. simpl. apply clean_walk_linearize. }
  split_and!; try done.
  - unfold clean_game at 1. unfold game_end at 1.
    rewrite clean_walk_linearize, Hroot, linearize_idemp.
    unfold clean_game, game_end. simpl. by rewrite clean_walk_linearize.
  - rewrite Hroot. apply stripped_linearize.
  - rewrite Hroot. apply mainline_moves_linearize.
Qed.

End CleanGame.

Lemma starting_comment_linearize : ∀ k t,
  starting_comment <$> node_at k (linearize t)
  = starting_comment <$> node_at k t.
Proof.
  induction k as [|k IH]; intros [c sc ns vs]; [done|].
  destruct vs as [|[m v] rest]; [done|]. simpl. apply IH.
Qed.

(** C6. [clean_game] does not strip all comments, as its docstring has
    it: it sets [comment] to [None] and never touches [starting_comment],
    the comment python-chess keeps, and prints, in front of a move. Every
    node of the main line of the cleaned game has the starting comment it
    had; in 1. e4 with "kept" in front of the move and "good" after it the
    cleaned game has lost "good" and holds "kept", and cleaning it again
    changes nothing. *)
Theorem clean_game_keeps_starting_comments :
  (∀ (Position : Type) (game : Game Position) k,
     starting_comment <$> node_at k (root (clean_game game))
     = starting_comment <$> node_at k (root game))
  ∧ node_at 1 (root Sample.game_started)
    = Some (mkNode (CStr "good") "kept" [] [])
  ∧ node_at 1 (root (clean_game Sample.game_started))
    = Some (mkNode CNone "kept" [] [])
  ∧ clean_game (clean_game Sample.game_started)
    = clean_game Sample.game_started.
Proof.
  split_and!; [|done..].
  intros Position game k. unfold clean_game, game_end. cbn [root].
  rewrite clean_walk_linearize. apply starting_comment_linearize.
Qed.

(** [clean_game] on a game with comments, a NAG and two side lines. *)
Example clean_game_var :
  root (clean_game Sample.game_var)
  = Sample.line CNone Sample.e2e4 (Sample.line CNone Sample.e7e5 (Sample.leaf CNone)).
Proof. reflexivity. Qed.

(** ** checkgame *)

Section CheckGame.
Context {Position : Type} `{!Rules Position} `{!Engine Position}.

Implicit Types (game : Game Position).

(** C3. [checkgame] succeeds for every game without recorded parsing
    errors whose end node is reached from the root, which the code decides
    by the end node having a parent ([game.end().parent is None] is the
    guard); for every other game it raises its [RuntimeError], the code's
    invalid-game error, and [analyze_game] stops there with the engine as
    it was and no search asked for. *)
Theorem checkgame_accepts game :
  (errors game = [] → (0 < game_end game)%nat → checkgame game = Ok tt)
  ∧ (errors game ≠ [] ∨ game_end game = 0%nat →
     ∃ msg,
       checkgame game = Raise (RuntimeError msg) ∧
       ∀ ecodata s,
         analyze_game ecodata game s = (Raise (RuntimeError msg), s)).
Proof.
  split.
  - intros He Hn. unfold checkgame. rewrite decide_False by (by intros []).
    rewrite decide_False; [done|]. by destruct (game_end game); [lia|].
  - intros Hbad.
    assert (∃ msg, checkgame game = Raise (RuntimeError msg)) as [msg Hmsg].
    { unfold checkgame. destruct (decide (errors game ≠ [])); [by eexists|].
      destruct Hbad as [?|Hn]; [done|].
      rewrite decide_True by (by rewrite Hn). by eexists. }
    exists msg. split; [done|]. intros ecodata s.
    unfold analyze_game, bind, lift. by rewrite Hmsg.
Qed.

End CheckGame.

(** C3 on 1. e4, which is accepted, and on the game without moves, which
    is not. *)
Lemma checkgame_accepts_witness :
  checkgame Sample.game1 = Ok tt
  ∧ ∃ msg,
      checkgame Sample.game0 = Raise (RuntimeError msg) ∧
      ∀ ecodata s,
        analyze_game ecodata Sample.game0 s = (Raise (RuntimeError msg), s).
Proof.
  split.
  - apply (proj1 (checkgame_accepts Sample.game1)).
    + reflexivity.
    + vm_compute. lia.
  - apply (proj2 (checkgame_accepts Sample.game0)).
    right. reflexivity.
Defined.

(** ** classify_fen and classify_opening *)

Lemma classify_fen_snoc (f : string) (ecodb : list Opening) (o : Opening) :
  classify_fen f (ecodb ++ [o])
  = if decide (fen o = f) then mkClassification (eco o) (name o) (moves o)
    else classify_fen f ecodb.
Proof. unfold classify_fen. by rewrite foldl_app. Qed.

(** A classification with a code comes from a record of the table with the
    position string asked for. *)
Lemma classify_fen_from_table (f : string) (ecodb : list Opening) :
  code (classify_fen f ecodb) ≠ "" →
  ∃ o, o ∈ ecodb ∧ fen o = f ∧
       eco o = code (classify_fen f ecodb) ∧
       name o = desc (classify_fen f ecodb).
Proof.
  induction ecodb as [|o ecodb IH] using rev_ind; [done|].
  rewrite classify_fen_snoc. case_decide as Hf.
  - intros _. exists o. split_and!; try done.
    apply elem_of_app. right. by apply list_elem_of_singleton.
  - intros Hc. destruct (IH Hc) as (o' & Ho' & ?). exists o'.
    split; [|done]. apply elem_of_app. by left.
Qed.

Lemma comment_update_at_other (c : Comment) : ∀ m k t,
  k ≠ m →
  comment <$> node_at k (update_at m (set_comment c) t) = comment <$> node_at k t.
Proof.
  induction m as [|m IH]; intros k [c0 sc ns vs] Hk.
  - destruct k as [|k]; [done|]. done.
  - destruct vs as [|[mv v] rest]; [done|].
    destruct k as [|k]; [done|]. simpl. apply IH. lia.
Qed.

Lemma comment_update_at_same (c : Comment) : ∀ m t,
  (m ≤ end_depth t)%nat →
  comment <$> node_at m (update_at m (set_comment c) t) = Some c.
Proof.
  induction m as [|m IH]; intros [c0 sc ns vs] Hm; [done|].
  destruct vs as [|[mv v] rest]; simpl in Hm; [lia|].
  simpl. apply IH. lia.
Qed.

Section ClassifyOpening.
Context {Position : Type} `{!Rules Position}.

Implicit Types (game : Game Position) (ecodata : list Opening).

Lemma classify_walk_none ecodata game : ∀ d ply_count examined,
  (∀ k, (0 < k ≤ d)%nat → ¬ classified_at ecodata game k) →
  classify_walk ecodata game d ply_count examined
  = (game, 0%nat, ply_count + Z.of_nat d, examined ++ walked 0 d).
Proof.
  induction d as [|d IH]; intros pc ex Hnone.
  - simpl. rewrite walked_same, app_nil_r. do 2 f_equal. lia.
  - cbn [classify_walk].
    rewrite decide_False by (intros Hc; apply (Hnone (S d)); [lia|done]).
    rewrite IH by (intros; apply Hnone; lia).
    rewrite walked_succ by lia. rewrite <- app_assoc. do 2 f_equal. lia.
Qed.

Lemma classify_walk_hit ecodata game m : ∀ d ply_count examined,
  (m ≤ d)%nat →
  classified_at ecodata game (S m) →
  (∀ k, (S m < k ≤ S d)%nat → ¬ classified_at ecodata game k) →
  classify_walk ecodata game (S d) ply_count examined
  = (classified_game ecodata game (S m), S m,
     ply_count + Z.of_nat (d - m), examined ++ walked m (S d)).
Proof.
  induction d as [|d IH]; intros pc ex Hmd Hhit Hnone.
  - assert (m = O) as -> by lia. cbn [classify_walk].
    rewrite decide_True by done.
    rewrite walked_succ, walked_same by lia.
    unfold classified_game. do 2 f_equal. simpl. lia.
  - destruct (decide (m = S d)) as [->|Hne].
    + cbn [classify_walk]. rewrite decide_True by done.
      rewrite walked_succ, walked_same by lia.
      unfold classified_game. do 2 f_equal. rewrite Nat.sub_diag. simpl. lia.
    + change (classify_walk ecodata game (S (S d)) pc ex)
        with (if decide (code (classify_fen
                                 (eco_fen (board_at game (S (S d)))) ecodata)
                         ≠ "")
              then (classified_game ecodata game (S (S d)), S (S d), pc,
                    ex ++ [S (S d)])
              else classify_walk ecodata game (S d) (pc + 1) (ex ++ [S (S d)])).
      rewrite decide_False by (intros Hc; apply (Hnone (S (S d))); [lia|done]).
      rewrite IH; [|lia|done|intros; apply Hnone; lia].
      rewrite (walked_succ m (S d)) by lia. rewrite <- app_assoc.
      do 2 f_equal. lia.
Qed.

End ClassifyOpening.

Section ClassifyOpeningClaims.
Context {Position : Type} `{!Rules Position}.

Implicit Types (game : Game Position) (ecodata : list Opening).

(** C4, as the code has it. [classify_opening] looks at the nodes of the
    main line other than the root, from the end of the game upwards. When
    [S m] is the deepest of them that the table classifies (the last record
    of the table with its position string has a code), the code and the
    description of that record go into the headers [ECO] and [Opening], the
    comment of that node becomes the code, a space and the description, the
    comment of no other node changes, the node is returned as [root_node],
    and the positions examined are those at depths [S m] and below it down
    to the end and none closer to the root; the record is one of the table
    with the position string of the node. When the table classifies none of
    these nodes, nothing is attached and the root is returned. *)
Theorem classify_opening_deepest_match ecodata game :
  (∀ m,
     (S m ≤ game_end game)%nat →
     classified_at ecodata game (S m) →
     (∀ k, (S m < k ≤ game_end game)%nat → ¬ classified_at ecodata game k) →
     let c := classify_fen (eco_fen (board_at game (S m))) ecodata in
     let ply_count := Z.of_nat (game_end game - S m) in
     let result := classify_opening ecodata game in
     result
     = mkClassified (with_moves ply_count (classified_game ecodata game (S m)))
         (S m) ply_count (walked m (game_end game))
     ∧ headers (cl_game result) !! "ECO" = Some (code c)
     ∧ headers (cl_game result) !! "Opening" = Some (desc c)
     ∧ comment <$> node_at (S m) (root (cl_game result))
       = Some (CStr (code c +:+ " " +:+ desc c))
     ∧ (∀ k, k ≠ S m →
          comment <$> node_at k (root (cl_game result))
          = comment <$> node_at k (root game))
     ∧ (∀ k, k ∈ cl_examined result → (S m ≤ k ≤ game_end game)%nat)
     ∧ (∃ o, o ∈ ecodata ∧ fen o = eco_fen (board_at game (S m)) ∧
             eco o = code c ∧ name o = desc c))
  ∧ ((∀ k, (0 < k ≤ game_end game)%nat → ¬ classified_at ecodata game k) →
     classify_opening ecodata game
     = mkClassified (with_moves (Z.of_nat (game_end game)) game)
         0%nat (Z.of_nat (game_end game)) (walked 0 (game_end game))).
Proof.
  split.
  - intros m Hm Hhit Hnone c ply_count result.
    assert (result
            = mkClassified
                (with_moves ply_count (classified_game ecodata game (S m)))
                (S m) ply_count (walked m (game_end game))) as Hres.
    { unfold result, classify_opening.
      destruct (game_end game) as [|d] eqn:Hd; [lia|].
      rewrite (classify_walk_hit ecodata game m) by (done || lia).
      unfold with_moves, ply_count. simpl.
      replace (0 + Z.of_nat (d - m)) with (Z.of_nat (d - m)) by lia. done. }
    rewrite Hres. unfold with_moves, classified_game.
    cbn [cl_game cl_examined headers root]. fold c. split_and!; try done.
    + rewrite lookup_insert_ne by done. rewrite lookup_insert_ne by done.
      by rewrite lookup_insert_eq.
    + rewrite lookup_insert_ne by done. by rewrite lookup_insert_eq.
    + by apply comment_update_at_same.
    + intros k Hk. by apply comment_update_at_other.
    + intros k Hk. apply elem_of_walked in Hk. lia.
    + by apply classify_fen_from_table.
  - intros Hnone. unfold classify_opening.
    rewrite classify_walk_none by done. unfold with_moves. simpl.
    replace (0 + Z.of_nat (game_end game)) with (Z.of_nat (game_end game)) by lia.
    done.
Qed.

End ClassifyOpeningClaims.

(** C4 on 1. e4 c5 with the table that knows the position after 1. e4. *)
Lemma classify_opening_deepest_match_witness :
  let result := classify_opening Sample.book Sample.game2 in
  cl_root_node result = 1%nat
  ∧ cl_ply_count result = 1
  ∧ cl_examined result = [2%nat; 1%nat]
  ∧ headers (cl_game result) !! "ECO" = Some "B00"
  ∧ headers (cl_game result) !! "Opening" = Some "King's pawn opening"
  ∧ headers (cl_game result) !! "Moves" = Some "1"
  ∧ comment <$> node_at 1 (root (cl_game result))
    = Some (CStr "B00 King's pawn opening").
Proof.
  destruct (proj1 (classify_opening_deepest_match Sample.book Sample.game2) 0%nat)
    as (Hres & Heco & Hop & Hc & _).
  - vm_compute. lia.
  - vm_compute. discriminate.
  - intros k Hk. change (game_end Sample.game2) with 2%nat in Hk.
    assert (k = 2%nat) as -> by lia. vm_compute. intros H. by apply H.
  - intros result. split_and!.
    + unfold result. by rewrite Hres.
    + unfold result. by rewrite Hres.
    + unfold result. by rewrite Hres.
    + exact Heco.
    + exact Hop.
    + unfold result. rewrite Hres. reflexivity.
    + exact Hc.
Defined.

(** C4 as it is stated fails. In 1. e4 the starting position is on the
    main line and its position string is a key of the table, but the walk
    stops before the root: only the node after 1. e4 is examined and
    nothing is attached. And with a table whose record for the position
    after 1. e4 has an empty code, that position matches the table and
    nothing is attached either. *)
Lemma classify_opening_attaches_nothing :
  (in_table Sample.book_start Sample.game1 0
   ∧ classify_opening Sample.book_start Sample.game1
     = mkClassified (with_moves 1 Sample.game1) 0%nat 1 [1%nat]
   ∧ headers (cl_game (classify_opening Sample.book_start Sample.game1)) !! "ECO"
     = None)
  ∧ (in_table Sample.book_blank Sample.game1 1
     ∧ classify_opening Sample.book_blank Sample.game1
       = mkClassified (with_moves 1 Sample.game1) 0%nat 1 [1%nat]
     ∧ headers (cl_game (classify_opening Sample.book_blank Sample.game1)) !! "ECO"
       = None).
Proof.
  split; (split_and!; [|vm_compute; reflexivity..]).
  - eexists. split; [apply list_elem_of_singleton; reflexivity|].
    vm_compute. reflexivity.
  - eexists. split; [apply list_elem_of_singleton; reflexivity|].
    vm_compute. reflexivity.
Qed.

(** * Further properties of acpl.py *)

(** ** eval_numeric and eval_absolute *)

(** X1. [eval_absolute] takes the value [eval_numeric] stores back to the
    engine's score for the side to move: applied with the side to move of
    the board searched it undoes the conversion to White's side, and
    applied twice with the same side it is the identity. *)
Theorem eval_absolute_undoes_white (s : Score) (t : bool)
    (pv : option (list Move)) (x : Z) :
  (∃ v, eval_numeric (mkInfo pv (Some (mkPovScore s t))) = Ok v ∧
        eval_absolute v t = score s 10000)
  ∧ eval_absolute (eval_absolute x t) t = x.
Proof.
  split.
  - eexists. split; [reflexivity|]. rewrite score_white.
    unfold eval_absolute. destruct t; lia.
  - unfold eval_absolute. destruct t; lia.
Qed.

(** ** judge_move when a search fails *)

Section JudgeMoveFailures.
Context {Position : Type} `{!Rules Position} `{!Engine Position}.

Implicit Types (w : World) (played best : Move).

(** X2. When the first search fails, or its reply has no variation, an
    empty variation, or no score, [judge_move] raises the engine's
    exception, [KeyError], [IndexError] or [KeyError] in that order of
    precedence; the caller's board is untouched and one search was asked. *)
Theorem judge_move_first_search_fails w played :
  (∀ e e1,
     respond (engine w) (board w) 22 = (Raise e, e1) →
     judge_move played w = (Raise e, mkWorld (board w) e1 (asked w [board w])))
  ∧ (∀ rep e1,
       respond (engine w) (board w) 22 = (Ok rep, e1) →
       reply_pv rep = None →
       judge_move played w
       = (Raise (KeyError "pv"), mkWorld (board w) e1 (asked w [board w])))
  ∧ (∀ rep e1,
       respond (engine w) (board w) 22 = (Ok rep, e1) →
       reply_pv rep = Some [] →
       judge_move played w
       = (Raise IndexError, mkWorld (board w) e1 (asked w [board w])))
  ∧ (∀ rep e1 best rest,
       respond (engine w) (board w) 22 = (Ok rep, e1) →
       reply_pv rep = Some (best :: rest) →
       reply_score rep = None →
       judge_move played w
       = (Raise (KeyError "score"), mkWorld (board w) e1 (asked w [board w]))).
Proof.
  split_and!.
  - intros e e1 Hr. unfold judge_move, bind, analyse. by rewrite Hr.
  - intros rep e1 Hr Hpv.
    unfold judge_move, bind, analyse, lift, first_pv_move.
    rewrite Hr; simpl. by rewrite Hpv.
  - intros rep e1 Hr Hpv.
    unfold judge_move, bind, analyse, lift, first_pv_move.
    rewrite Hr; simpl. by rewrite Hpv.
  - intros rep e1 best rest Hr Hpv Hs.
    unfold judge_move, bind, analyse, lift, first_pv_move, eval_numeric.
    rewrite Hr; simpl. by rewrite Hpv, Hs.
Qed.

(** X3. When the played move is not the engine's choice and the second
    search fails, or its reply has no score, [judge_move] raises with the
    played move still pushed on the caller's board: the [pop] is not
    reached. *)
Theorem judge_move_second_search_fails w played best rep e1 rest s :
  respond (engine w) (board w) 22 = (Ok rep, e1) →
  reply_pv rep = Some (best :: rest) →
  reply_score rep = Some s →
  played ≠ best →
  (∀ e e2,
     respond e1 (push (board w) played) 22 = (Raise e, e2) →
     judge_move played w
     = (Raise e,
        mkWorld (push (board w) played) e2
          (asked w [board w; push (board w) played])))
  ∧ (∀ rep' e2,
       respond e1 (push (board w) played) 22 = (Ok rep', e2) →
       reply_score rep' = None →
       judge_move played w
       = (Raise (KeyError "score"),
          mkWorld (push (board w) played) e2
            (asked w [board w; push (board w) played]))).
Proof.
  intros Hr Hpv Hs Hne. split.
  - intros e e2 Hr'. first_search Hr Hpv Hs.
    rewrite decide_False by done.
    unfold board_push, modify; simpl.
    change (mkBoard (step (pos (board w)) played)
              (played :: move_stack (board w))
              (pos (board w) :: stack (board w)))
      with (push (board w) played).
    rewrite Hr'. unfold asked. simpl. by rewrite <- app_assoc.
  - intros rep' e2 Hr' Hs'. first_search Hr Hpv Hs.
    rewrite decide_False by done.
    unfold board_push, modify; simpl.
    change (mkBoard (step (pos (board w)) played)
              (played :: move_stack (board w))
              (pos (board w) :: stack (board w)))
      with (push (board w) played).
    rewrite Hr'. simpl. rewrite Hs'. unfold asked. simpl.
    by rewrite <- app_assoc.
Qed.

End JudgeMoveFailures.

(** X2 with the engine that fails on the position after 1. Nf3 e5, gives no
    variation on the starting position, an empty one after 1. e4 and no
    score after 1. d4. *)
Lemma judge_move_first_search_fails_witness :
  fst (@judge_move _ _ Sample.faulty_engine Sample.e2e4
         (Sample.faulty_world (Sample.after [Sample.g1f3; Sample.e7e5])))
  = Raise EngineError
  ∧ fst (@judge_move _ _ Sample.faulty_engine Sample.e2e4
           (Sample.faulty_world Sample.start_board))
    = Raise (KeyError "pv")
  ∧ fst (@judge_move _ _ Sample.faulty_engine Sample.e7e5
           (Sample.faulty_world (Sample.after [Sample.e2e4])))
    = Raise IndexError
  ∧ fst (@judge_move _ _ Sample.faulty_engine Sample.d7d5
           (Sample.faulty_world (Sample.after [Sample.d2d4])))
    = Raise (KeyError "score").
Proof.
  split_and!.
  - rewrite (proj1 (@judge_move_first_search_fails _ _ Sample.faulty_engine
                      (Sample.faulty_world
                         (Sample.after [Sample.g1f3; Sample.e7e5]))
                      Sample.e2e4) EngineError 1%nat); reflexivity.
  - rewrite (proj1 (proj2 (@judge_move_first_search_fails _ _
                             Sample.faulty_engine
                             (Sample.faulty_world Sample.start_board)
                             Sample.e2e4))
               (mkReply None (Some (Cp 30))) 1%nat); reflexivity.
  - rewrite (proj1 (proj2 (proj2 (@judge_move_first_search_fails _ _
                                    Sample.faulty_engine
                                    (Sample.faulty_world
                                       (Sample.after [Sample.e2e4]))
                                    Sample.e7e5)))
               (mkReply (Some []) (Some (Cp 0))) 1%nat); reflexivity.
  - rewrite (proj2 (proj2 (proj2 (@judge_move_first_search_fails _ _
                                    Sample.faulty_engine
                                    (Sample.faulty_world
                                       (Sample.after [Sample.d2d4]))
                                    Sample.d7d5)))
               (mkReply (Some [Sample.d7d5]) None) 1%nat Sample.d7d5 []);
      reflexivity.
Defined.

(** X3 with the same engine: after 1. Nf3 it prefers 1... d5 and fails on
    the position after 1... e5; after 1. f3 it prefers 1... e5 and has no
    score for the position after 1... c5. Either way the played move stays
    on the board. *)
Lemma judge_move_second_search_fails_witness :
  (let r := @judge_move _ _ Sample.faulty_engine Sample.e7e5
              (Sample.faulty_world (Sample.after [Sample.g1f3])) in
   fst r = Raise EngineError ∧
   board (snd r) = Sample.after [Sample.g1f3; Sample.e7e5])
  ∧ (let r := @judge_move _ _ Sample.faulty_engine Sample.c7c5
                (Sample.faulty_world (Sample.after [Sample.f2f3])) in
     fst r = Raise (KeyError "score") ∧
     board (snd r) = Sample.after [Sample.f2f3; Sample.c7c5]).
Proof.
  split.
  - rewrite (proj1 (@judge_move_second_search_fails _ _ Sample.faulty_engine
                      (Sample.faulty_world (Sample.after [Sample.g1f3]))
                      Sample.e7e5 Sample.d7d5
                      (mkReply (Some [Sample.d7d5]) (Some (Cp (-20))))
                      1%nat [] (Cp (-20))
                      eq_refl eq_refl eq_refl ltac:(discriminate))
               EngineError 2%nat eq_refl).
    split; reflexivity.
  - rewrite (proj2 (@judge_move_second_search_fails _ _ Sample.faulty_engine
                      (Sample.faulty_world (Sample.after [Sample.f2f3]))
                      Sample.c7c5 Sample.e7e5
                      (mkReply (Some [Sample.e7e5]) (Some (Cp 40)))
                      1%nat [] (Cp 40)
                      eq_refl eq_refl eq_refl ltac:(discriminate))
               (mkReply (Some [Sample.e2e4]) None) 2%nat eq_refl eq_refl).
    split; reflexivity.
Defined.

(** ** truncate_pv when a move is illegal *)

Section TruncatePvFailure.
Context {Position : Type} `{!Rules Position}.

Implicit Types (b : Board Position) (pv : list Move).

Lemma legal_pv_take b pv i : legal_pv b pv → legal_pv b (take i pv).
Proof.
  intros Hl k m Hk.
  apply lookup_take_Some in Hk as [Hk Hki].
  rewrite take_take. replace (k `min` i)%nat with k by lia. by apply Hl.
Qed.

Lemma push_legal_stops pv : ∀ b i m,
  legal_pv b (take i pv) →
  pv !! i = Some m →
  is_legal (pos (push_all b (take i pv))) m = false →
  push_legal pv b = (Raise AssertionError, push_all b (take i pv)).
Proof.
  induction pv as [|x pv IH]; intros b i m Hl Hi Hbad; [done|].
  rewrite push_legal_cons. destruct i as [|i]; simpl in *.
  - injection Hi as ->. by rewrite Hbad.
  - apply legal_pv_cons in Hl as [H0 Hl]. rewrite H0. by eapply IH.
Qed.

(** X4. When the move at index [i] of the variation is the first that is
    not legal where it would be applied, [truncate_pv] raises
    [AssertionError] and leaves the caller's board with exactly the [i]
    moves before it pushed. *)
Theorem truncate_pv_stops_at_illegal_move b pv i m :
  legal_pv b (take i pv) →
  pv !! i = Some m →
  is_legal (pos (push_all b (take i pv))) m = false →
  truncate_pv pv b = (Raise AssertionError, push_all b (take i pv))
  ∧ move_stack (push_all b (take i pv))
    = reverse (take i pv) ++ move_stack b.
Proof.
  intros Hl Hi Hbad. split; [|apply move_stack_push_all].
  unfold truncate_pv, bind. by rewrite (push_legal_stops pv b i m).
Qed.

End TruncatePvFailure.

(** X4 on 1. e4 e5 2. d4 e5: the fourth move is not legal, the first three
    stay pushed. *)
Lemma truncate_pv_stops_at_illegal_move_witness :
  truncate_pv [Sample.e2e4; Sample.e7e5; Sample.d2d4; Sample.e7e5]
    Sample.start_board
  = (Raise AssertionError,
     push_all Sample.start_board
       (take 3 [Sample.e2e4; Sample.e7e5; Sample.d2d4; Sample.e7e5]))
  ∧ move_stack (push_all Sample.start_board
                  (take 3 [Sample.e2e4; Sample.e7e5; Sample.d2d4; Sample.e7e5]))
    = reverse (take 3 [Sample.e2e4; Sample.e7e5; Sample.d2d4; Sample.e7e5])
      ++ move_stack Sample.start_board.
Proof.
  apply (truncate_pv_stops_at_illegal_move Sample.start_board
           [Sample.e2e4; Sample.e7e5; Sample.d2d4; Sample.e7e5] 3 Sample.e7e5).
  - intros [|[|[|k]]] m Hk; simpl in Hk; try discriminate;
      injection Hk as <-; vm_compute; reflexivity.
  - reflexivity.
  - vm_compute. reflexivity.
Defined.

(** ** game_length *)

Lemma end_depth_mainline_moves (t : GameNode) :
  end_depth t = length (mainline_moves t).
Proof.
  remember (end_depth t) as n eqn:Hn. revert t Hn.
  induction n as [|n IH]; intros [c sc ns [|[m v] rest]] Hn; simpl in Hn; try done.
  injection Hn as ->. simpl. f_equal. by apply IH.
Qed.

Lemma game_length_walk_add (d : nat) : ∀ ply_count,
  game_length_walk d ply_count = ply_count + Z.of_nat d.
Proof.
  induction d as [|d IH]; intros pc; simpl game_length_walk; [lia|].
  rewrite IH. lia.
Qed.

Section GameLength.
Context {Position : Type}.

Implicit Types (game : Game Position).

(** X5. [game_length] counts the moves of the main line, whatever side
    lines the game has; [clean_game] does not change it, and a game that
    [checkgame] accepts has a positive length. *)
Theorem game_length_counts_mainline game :
  game_length game = Z.of_nat (length (mainline_moves (root game)))
  ∧ game_length (clean_game game) = game_length game
  ∧ (checkgame game = Ok tt → 0 < game_length game).
Proof.
  assert (∀ g : Game Position,
            game_length g = Z.of_nat (length (mainline_moves (root g)))) as Hlen.
  { intros g. unfold game_length, game_end.
    rewrite game_length_walk_add, end_depth_mainline_moves. lia. }
  split_and!; [done| |].
  - rewrite !Hlen. unfold clean_game, game_end. simpl.
    by rewrite clean_walk_linearize, mainline_moves_linearize.
  - unfold checkgame. case_decide; [done|]. case_decide as Hp; [done|].
    intros _. rewrite Hlen, <- end_depth_mainline_moves.
    unfold game_end in Hp. destruct (end_depth (root game)); [done|lia].
Qed.

End GameLength.

(** X5 on 1. e4 c5, which [checkgame] accepts, and on the game with two
    side lines, whose main line has two moves. *)
Lemma game_length_counts_mainline_witness :
  0 < game_length Sample.game2 ∧ game_length Sample.game_var = 2.
Proof.
  split.
  - apply (proj2 (proj2 (game_length_counts_mainline Sample.game2))).
    reflexivity.
  - rewrite (proj1 (game_length_counts_mainline Sample.game_var)). reflexivity.
Defined.

(** ** classify_fen *)

(** X6. [classify_fen] returns the three empty strings when no record of
    the table has the position string, and otherwise the code, name and
    moves of the last record that has it, whatever records come before. *)
Theorem classify_fen_last_match (f : string) (ecodb : list Opening) :
  ((∀ o, o ∈ ecodb → fen o ≠ f) →
   classify_fen f ecodb = mkClassification "" "" "")
  ∧ (∀ before o after,
       ecodb = before ++ o :: after →
       fen o = f →
       (∀ o', o' ∈ after → fen o' ≠ f) →
       classify_fen f ecodb = mkClassification (eco o) (name o) (moves o)).
Proof.
  assert (∀ db acc, (∀ o, o ∈ db → fen o ≠ f) →
            foldl (λ classification opening,
                     if decide (fen opening = f)
                     then mkClassification (eco opening) (name opening)
                            (moves opening)
                     else classification) acc db = acc) as Hskip.
  { induction db as [|o db IH]; intros acc Hno; [done|]. simpl.
    rewrite decide_False by (apply Hno; by left).
    apply IH. intros o' Ho'. apply Hno. by right. }
  split.
  - intros Hno. unfold classify_fen. by apply Hskip.
  - intros before o after -> Hf Hno. unfold classify_fen.
    rewrite foldl_app. simpl. rewrite decide_True by done. by apply Hskip.
Qed.

(** X6 on a table with two records for the position after 1. e4. *)
Lemma classify_fen_last_match_witness :
  classify_fen "8/8/8/8/8/8/8/8 w -" Sample.book = mkClassification "" "" ""
  ∧ classify_fen (Sample.e4_fen +:+ " b KQkq") (Sample.book_blank ++ Sample.book)
    = mkClassification "B00" "King's pawn opening" "e4".
Proof.
  split.
  - apply (proj1 (classify_fen_last_match "8/8/8/8/8/8/8/8 w -" Sample.book)).
    intros o Ho. apply list_elem_of_singleton in Ho as ->. vm_compute.
    discriminate.
  - apply (proj2 (classify_fen_last_match (Sample.e4_fen +:+ " b KQkq")
                    (Sample.book_blank ++ Sample.book))
             Sample.book_blank
             (mkOpening "B00" "King's pawn opening"
                (Sample.e4_fen +:+ " b KQkq") "e4") []).
    + reflexivity.
    + reflexivity.
    + intros o' Ho'. by apply elem_of_nil in Ho'.
Defined.

(** X7. Looking a position string up with [classify_fen] is looking it up
    in the table read as a mapping from position strings to records, the
    later of two records with one string standing for both. *)
Theorem classify_fen_is_lookup (f : string) (ecodb : list Opening) :
  classify_fen f ecodb
  = match fen_index ecodb !! f with
    | Some o => mkClassification (eco o) (name o) (moves o)
    | None => mkClassification "" "" ""
    end.
Proof.
  induction ecodb as [|o ecodb IH] using rev_ind; [done|].
  rewrite classify_fen_snoc. unfold fen_index.
  rewrite reverse_app. simpl. rewrite lookup_insert.
  case_decide; [done|]. exact IH.
Qed.

(** ** classify_opening on every game *)

Lemma mainline_moves_update_comment (c : Comment) : ∀ d t,
  mainline_moves (update_at d (set_comment c) t) = mainline_moves t.
Proof.
  induction d as [|d IH]; intros [c0 sc ns vs]; [done|].
  destruct vs as [|[m v] rest]; [done|]. simpl. f_equal. apply IH.
Qed.

Lemma end_depth_update_comment (c : Comment) (d : nat) (t : GameNode) :
  end_depth (update_at d (set_comment c) t) = end_depth t.
Proof. by rewrite !end_depth_mainline_moves, mainline_moves_update_comment. Qed.

Section ClassifyOpeningTotal.
Context {Position : Type} `{!Rules Position}.

Implicit Types (game : Game Position) (ecodata : list Opening).

(** Below depth [d] either no node other than the root is classified, or
    there is a deepest one. *)
Lemma deepest_classified ecodata game : ∀ d,
  (∀ k, (0 < k ≤ d)%nat → ¬ classified_at ecodata game k)
  ∨ ∃ m, (S m ≤ d)%nat ∧ classified_at ecodata game (S m) ∧
         ∀ k, (S m < k ≤ d)%nat → ¬ classified_at ecodata game k.
Proof.
  induction d as [|d IH]; [left; intros; lia|].
  destruct (decide (classified_at ecodata game (S d))) as [Hc|Hc].
  - right. exists d. split_and!; [lia|done|intros; lia].
  - destruct IH as [Hnone|(m & Hm & Hhit & Hnone)].
    + left. intros k Hk. destruct (decide (k = S d)) as [->|]; [done|].
      apply Hnone. lia.
    + right. exists m. split_and!; [lia|done|].
      intros k Hk. destruct (decide (k = S d)) as [->|]; [done|].
      apply Hnone. lia.
Qed.

(** What [classify_opening] returns, in the two cases. *)
Lemma classify_opening_cases ecodata game :
  ((∀ k, (0 < k ≤ game_end game)%nat → ¬ classified_at ecodata game k) ∧
   classify_opening ecodata game
   = mkClassified (with_moves (Z.of_nat (game_end game)) game)
       0%nat (Z.of_nat (game_end game)) (walked 0 (game_end game)))
  ∨ ∃ m,
      (S m ≤ game_end game)%nat ∧
      classified_at ecodata game (S m) ∧
      (∀ k, (S m < k ≤ game_end game)%nat → ¬ classified_at ecodata game k) ∧
      classify_opening ecodata game
      = mkClassified
          (with_moves (Z.of_nat (game_end game - S m))
             (classified_game ecodata game (S m)))
          (S m) (Z.of_nat (game_end game - S m)) (walked m (game_end game)).
Proof.
  destruct (deepest_classified ecodata game (game_end game))
    as [Hnone|(m & Hm & Hhit & Hnone)].
  - left. split; [done|]. unfold classify_opening.
    rewrite classify_walk_none by done. unfold with_moves. simpl.
    by replace (0 + Z.of_nat (game_end game)) with (Z.of_nat (game_end game))
      by lia.
  - right. exists m. split_and!; try done. unfold classify_opening.
    destruct (game_end game) as [|d] eqn:Hd; [lia|].
    rewrite (classify_walk_hit ecodata game m) by (done || lia).
    unfold with_moves. simpl.
    by replace (0 + Z.of_nat (d - m)) with (Z.of_nat (d - m)) by lia.
Qed.

(** X8. For every table and game, the node [classify_opening] returns as
    [root_node] lies on the main line, the ply count it returns is the
    number of moves between that node and the end of the game, this count
    is what it writes under [Moves], and the positions it examined are
    those from the end of the game up to that node, the root excepted. *)
Theorem classify_opening_accounting ecodata game :
  let result := classify_opening ecodata game in
  (cl_root_node result ≤ game_end game)%nat
  ∧ cl_ply_count result = Z.of_nat (game_end game - cl_root_node result)
  ∧ cl_ply_count result + Z.of_nat (cl_root_node result) = game_length game
  ∧ headers (cl_game result) !! "Moves" = Some (str (cl_ply_count result))
  ∧ cl_examined result = walked (pred (cl_root_node result)) (game_end game).
Proof.
  intros result. unfold result.
  assert (game_length game = Z.of_nat (game_end game)) as Hlen.
  { unfold game_length. rewrite game_length_walk_add. lia. }
  destruct (classify_opening_cases ecodata game)
    as [[_ ->]|(m & Hm & _ & _ & ->)];
    unfold with_moves; cbn [cl_root_node cl_ply_count cl_game cl_examined
                            headers pred];
    rewrite Hlen, lookup_insert_eq; split_and!; try done; try lia.
Qed.

(** X9. For every table and game, [classify_opening] returns the root, with
    nothing attached, exactly when the table classifies no node of the main
    line other than the root; otherwise it returns a node the table
    classifies, below which no node is classified. *)
Theorem classify_opening_root_node ecodata game :
  let result := classify_opening ecodata game in
  (cl_root_node result = 0%nat ∧
   (∀ k, (0 < k ≤ game_end game)%nat → ¬ classified_at ecodata game k) ∧
   root (cl_game result) = root game ∧
   headers (cl_game result)
   = <["Moves" := str (Z.of_nat (game_end game))]> (headers game))
  ∨ ((0 < cl_root_node result ≤ game_end game)%nat ∧
     classified_at ecodata game (cl_root_node result) ∧
     (∀ k, (cl_root_node result < k ≤ game_end game)%nat →
           ¬ classified_at ecodata game k) ∧
     cl_game result
     = with_moves (cl_ply_count result)
         (classified_game ecodata game (cl_root_node result))).
Proof.
  intros result. unfold result.
  destruct (classify_opening_cases ecodata game)
    as [[Hnone ->]|(m & Hm & Hhit & Hnone & ->)].
  - left. by split_and!.
  - right. cbn [cl_root_node cl_ply_count cl_game]. split_and!; try done. lia.
Qed.

(** X10. [classify_opening] keeps the moves of the main line, and so the
    board of every node, the recorded errors and the starting position; of
    the headers it changes [Moves], and [ECO] and [Opening] only when it
    returns a node other than the root. *)
Theorem classify_opening_keeps_game ecodata game :
  let result := classify_opening ecodata game in
  mainline_moves (root (cl_game result)) = mainline_moves (root game)
  ∧ game_end (cl_game result) = game_end game
  ∧ (∀ d, board_at (cl_game result) d = board_at game d)
  ∧ errors (cl_game result) = errors game
  ∧ setup (cl_game result) = setup game
  ∧ (∀ key, key ≠ "Moves" → key ≠ "ECO" → key ≠ "Opening" →
            headers (cl_game result) !! key = headers game !! key)
  ∧ (cl_root_node result = 0%nat →
     ∀ key, key ≠ "Moves" →
            headers (cl_game result) !! key = headers game !! key).
Proof.
  intros result.
  assert (mainline_moves (root (cl_game result)) = mainline_moves (root game)
          ∧ errors (cl_game result) = errors game
          ∧ setup (cl_game result) = setup game) as (Hmoves & Herr & Hset).
  { unfold result.
    destruct (classify_opening_cases ecodata game)
      as [[_ ->]|(m & _ & _ & _ & ->)]; [done|].
    unfold with_moves, classified_game. cbn [cl_game root errors setup].
    by rewrite mainline_moves_update_comment. }
  split_and!; try done.
  - unfold game_end. by rewrite !end_depth_mainline_moves, Hmoves.
  - intros d. unfold board_at. by rewrite Hmoves, Hset.
  - intros key H1 H2 H3. unfold result.
    destruct (classify_opening_cases ecodata game)
      as [[_ ->]|(m & _ & _ & _ & ->)];
      unfold with_moves, classified_game; cbn [cl_game headers].
    + by rewrite lookup_insert_ne.
    + by rewrite !lookup_insert_ne.
  - intros Hroot key H1. unfold result in *.
    destruct (classify_opening_cases ecodata game)
      as [[_ Hres]|(m & _ & _ & _ & Hres)]; rewrite Hres in *.
    + unfold with_moves; cbn [cl_game headers]. by rewrite lookup_insert_ne.
    + done.
Qed.

End ClassifyOpeningTotal.

(** X10 on 1. e4 c5 classified at 1. e4: the player tags stay, and on 1. e4
    with the table of the starting position nothing but [Moves] changes. *)
Lemma classify_opening_keeps_game_witness :
  headers (cl_game (classify_opening Sample.book Sample.game2)) !! "White"
  = headers Sample.game2 !! "White"
  ∧ headers (cl_game (classify_opening Sample.book_start Sample.game1)) !! "ECO"
    = headers Sample.game1 !! "ECO".
Proof.
  split.
  - apply (proj1 (proj2 (proj2 (proj2 (proj2 (proj2
             (classify_opening_keeps_game Sample.book Sample.game2)))))));
      discriminate.
  - apply (proj2 (proj2 (proj2 (proj2 (proj2 (proj2
             (classify_opening_keeps_game Sample.book_start Sample.game1)))))));
      [reflexivity|discriminate].
Defined.

(** ** acpl as a mean *)

Lemma sum_between (lo hi : Z) (l : list Z) :
  (∀ x, x ∈ l → lo ≤ x ≤ hi) →
  lo * len l ≤ sum l ≤ hi * len l.
Proof.
  unfold len. induction l as [|x l IH]; intros Hl; [simpl; lia|].
  assert (lo ≤ x ≤ hi) by (apply Hl; by left).
  assert (lo * Z.of_nat (length l) ≤ sum l ≤ hi * Z.of_nat (length l)) as IH'.
  { apply IH. intros y Hy. apply Hl. by right. }
  cbn [sum foldr length]. fold (sum l). lia.
Qed.

(** *** Rounding to a double and to an integer *)

Lemma pow2_pos k : 0 < pow2 k.
Proof. unfold pow2. apply Z.pow_pos_nonneg; lia. Qed.

Lemma pow2_nonneg k : 0 ≤ k → pow2 k = 2 ^ k.
Proof. intros. unfold pow2. by rewrite Z.max_r. Qed.

Lemma pow2_nonpos k : k ≤ 0 → pow2 k = 1.
Proof. intros. unfold pow2. by rewrite Z.max_l. Qed.

Lemma round_half_even_le (hi a : Z) (b : positive) :
  a ≤ hi * Zpos b → round_half_even (Qmake a b) ≤ hi.
Proof.
  intros Hab. unfold round_half_even. cbn [Qnum Qden].
  pose proof (Z.div_mod a (Zpos b) ltac:(lia)) as Hdm.
  pose proof (Z.mod_pos_bound a (Zpos b) ltac:(lia)) as Hr.
  set (fl := a `div` Zpos b) in *. set (r := a `mod` Zpos b) in *.
  assert (fl ≤ hi) by nia.
  assert (0 < r → fl + 1 ≤ hi) by (intros; nia).
  repeat case_decide; try lia.
  destruct (Z.even fl); lia.
Qed.

Lemma round_half_even_ge (lo a : Z) (b : positive) :
  lo * Zpos b ≤ a → lo ≤ round_half_even (Qmake a b).
Proof.
  intros Hab. unfold round_half_even. cbn [Qnum Qden].
  pose proof (Z.div_mod a (Zpos b) ltac:(lia)) as Hdm.
  pose proof (Z.mod_pos_bound a (Zpos b) ltac:(lia)) as Hr.
  set (fl := a `div` Zpos b) in *. set (r := a `mod` Zpos b) in *.
  assert (lo ≤ fl) by nia.
  repeat case_decide; try lia.
  destruct (Z.even fl); lia.
Qed.

(** The exponent is not above the quotient. *)
Lemma exponent_below (n : Z) (d : positive) :
  n ≠ 0 → 0 ≤ exponent n d → 2 ^ exponent n d * Zpos d ≤ Z.abs n.
Proof.
  intros Hn. unfold exponent.
  set (e := Z.log2 (Z.abs n) - Z.log2 (Zpos d)).
  case_decide as Htest; intros He.
  - rewrite pow2_nonneg, pow2_nonpos in Htest by lia. lia.
  - pose proof (Z.log2_spec (Z.abs n) ltac:(lia)) as [Hla _].
    pose proof (Z.log2_spec (Zpos d) ltac:(lia)) as [_ Hlb].
    pose proof (Z.log2_nonneg (Zpos d)) as Hlb0.
    assert (2 ^ Z.log2 (Z.abs n) = 2 ^ (e - 1) * 2 ^ Z.succ (Z.log2 (Zpos d))) as Heq.
    { rewrite <- Z.pow_add_r by lia. f_equal. lia. }
    assert (0 < 2 ^ (e - 1)) by (apply Z.pow_pos_nonneg; lia).
    nia.
Qed.

Lemma scaled_up (n : Z) (d : positive) (k : Z) :
  0 ≤ k → scaled n d k = Qmake (n * 2 ^ k) d.
Proof.
  intros Hk. unfold scaled. rewrite pow2_nonneg, pow2_nonpos by lia.
  f_equal. lia.
Qed.

Lemma scaled_down (n : Z) (d : positive) (k : Z) :
  k ≤ 0 → scaled n d k = Qmake n (d * Z.to_pos (2 ^ (- k))).
Proof.
  intros Hk. unfold scaled. rewrite pow2_nonpos, pow2_nonneg by lia.
  f_equal. lia.
Qed.

Lemma round_half_even_int (z : Z) : round_half_even (Qmake z 1) = z.
Proof.
  unfold round_half_even. cbn [Qnum Qden].
  rewrite Z.div_1_r, Z.mod_1_r. by rewrite decide_True by lia.
Qed.

Lemma round_nearest_double_le (hi n : Z) (d : positive) :
  - 2 ^ 53 ≤ hi ≤ 2 ^ 53 →
  n ≤ hi * Zpos d →
  round_half_even (nearest_double n d) ≤ hi.
Proof.
  intros Hhi Hn. unfold nearest_double.
  case_decide as Hz; [subst n; change (round_half_even 0%Q) with 0; nia|].
  set (e := exponent n d).
  destruct (decide (e ≤ 52)) as [He|He].
  - rewrite (scaled_up n d) by lia.
    rewrite (scaled_down _ 1) by lia.
    replace (- (e - 52)) with (52 - e) by lia.
    assert (0 < 2 ^ (52 - e)) as Hp by (apply Z.pow_pos_nonneg; lia).
    apply round_half_even_le.
    replace (Zpos (1 * Z.to_pos (2 ^ (52 - e)))) with (2 ^ (52 - e)) by lia.
    apply round_half_even_le. nia.
  - pose proof (exponent_below n d Hz ltac:(fold e; lia)) as Hlow. fold e in Hlow.
    assert (2 ^ 53 ≤ 2 ^ e) as Hbig by (apply Z.pow_le_mono_r; lia).
    assert (0 < 2 ^ (e - 52)) as Hp by (apply Z.pow_pos_nonneg; lia).
    assert (2 ^ e = 2 ^ 52 * 2 ^ (e - 52)) as Hsplit.
    { rewrite <- Z.pow_add_r by lia. f_equal. lia. }
    rewrite (scaled_down n d) by lia.
    rewrite (scaled_up _ 1) by lia.
    replace (- (52 - e)) with (e - 52) by lia.
    rewrite round_half_even_int.
    destruct (decide (0 < n)) as [Hpos|Hneg].
    + (* the quotient is 2^53 *)
      assert (n = 2 ^ 53 * Zpos d ∧ hi = 2 ^ 53 ∧ e = 53) as (-> & -> & He53).
      { assert (2 ^ 53 * Zpos d ≤ n) by nia.
        assert (hi = 2 ^ 53) by nia.
        assert (n = 2 ^ 53 * Zpos d) by nia.
        split_and!; try done.
        destruct (decide (e = 53)) as [|Hne]; [done|].
        assert (2 ^ 54 ≤ 2 ^ e) by (apply Z.pow_le_mono_r; lia).
        nia. }
      rewrite He53. change (53 - 52) with 1. change (2 ^ 1) with 2.
      assert (round_half_even (Qmake (2 ^ 53 * Zpos d) (d * Z.to_pos 2)) = 2 ^ 52)
        as ->; [|lia].
      unfold round_half_even. cbn [Qnum Qden].
      replace (Zpos (d * Z.to_pos 2)) with (Zpos d * 2) by lia.
      replace (2 ^ 53 * Zpos d) with (2 ^ 52 * (Zpos d * 2)) by lia.
      rewrite Z.div_mul, Z.mod_mul by lia.
      by rewrite decide_True by lia.
    + assert (round_half_even (Qmake n (d * Z.to_pos (2 ^ (e - 52)))) ≤ - 2 ^ 52).
      { apply round_half_even_le.
        replace (Zpos (d * Z.to_pos (2 ^ (e - 52))))
          with (Zpos d * 2 ^ (e - 52)) by lia.
        nia. }
      nia.
Qed.

Lemma round_nearest_double_ge (lo n : Z) (d : positive) :
  - 2 ^ 53 ≤ lo ≤ 2 ^ 53 →
  lo * Zpos d ≤ n →
  lo ≤ round_half_even (nearest_double n d).
Proof.
  intros Hlo Hn. unfold nearest_double.
  case_decide as Hz; [subst n; change (round_half_even 0%Q) with 0; nia|].
  set (e := exponent n d).
  destruct (decide (e ≤ 52)) as [He|He].
  - rewrite (scaled_up n d) by lia.
    rewrite (scaled_down _ 1) by lia.
    replace (- (e - 52)) with (52 - e) by lia.
    assert (0 < 2 ^ (52 - e)) as Hp by (apply Z.pow_pos_nonneg; lia).
    apply round_half_even_ge.
    replace (Zpos (1 * Z.to_pos (2 ^ (52 - e)))) with (2 ^ (52 - e)) by lia.
    apply round_half_even_ge. nia.
  - pose proof (exponent_below n d Hz ltac:(fold e; lia)) as Hlow. fold e in Hlow.
    assert (2 ^ 53 ≤ 2 ^ e) as Hbig by (apply Z.pow_le_mono_r; lia).
    assert (0 < 2 ^ (e - 52)) as Hp by (apply Z.pow_pos_nonneg; lia).
    assert (2 ^ e = 2 ^ 52 * 2 ^ (e - 52)) as Hsplit.
    { rewrite <- Z.pow_add_r by lia. f_equal. lia. }
    rewrite (scaled_down n d) by lia.
    rewrite (scaled_up _ 1) by lia.
    replace (- (52 - e)) with (e - 52) by lia.
    rewrite round_half_even_int.
    destruct (decide (n < 0)) as [Hneg|Hpos].
    + assert (n = - 2 ^ 53 * Zpos d ∧ lo = - 2 ^ 53 ∧ e = 53) as (-> & -> & He53).
      { assert (n ≤ - 2 ^ 53 * Zpos d) by nia.
        assert (lo = - 2 ^ 53) by nia.
        assert (n = - 2 ^ 53 * Zpos d) by nia.
        split_and!; try done.
        destruct (decide (e = 53)) as [|Hne]; [done|].
        assert (2 ^ 54 ≤ 2 ^ e) by (apply Z.pow_le_mono_r; lia).
        nia. }
      rewrite He53. change (53 - 52) with 1. change (2 ^ 1) with 2.
      assert (round_half_even (Qmake (- 2 ^ 53 * Zpos d) (d * Z.to_pos 2)) = - 2 ^ 52)
        as ->; [|lia].
      unfold round_half_even. cbn [Qnum Qden].
      replace (Zpos (d * Z.to_pos 2)) with (Zpos d * 2) by lia.
      replace (- 2 ^ 53 * Zpos d) with (- 2 ^ 52 * (Zpos d * 2)) by lia.
      rewrite Z.div_mul, Z.mod_mul by lia.
      by rewrite decide_True by lia.
    + assert (2 ^ 52 ≤ round_half_even (Qmake n (d * Z.to_pos (2 ^ (e - 52))))).
      { apply round_half_even_ge.
        replace (Zpos (d * Z.to_pos (2 ^ (e - 52))))
          with (Zpos d * 2 ^ (e - 52)) by lia.
        nia. }
      nia.
Qed.

Lemma of_nat_length_cons {A} (x : A) (l : list A) :
  Zpos (Pos.of_nat (length (x :: l))) = len (x :: l).
Proof. unfold len. simpl length. lia. Qed.

(** X11. The rounded average [acpl] gives for a list with at least one
    element lies between any two bounds that hold for all its elements and
    are at most [2 ** 53] in size, so that they are doubles: it is a mean,
    and neither the rounding of the quotient to a double nor the rounding
    of the double to an integer takes it past such a bound. *)
Theorem acpl_between_bounds (lo hi : Z) (l : list Z) :
  l ≠ [] →
  - 2 ^ 53 ≤ lo →
  hi ≤ 2 ^ 53 →
  (∀ x, x ∈ l → lo ≤ x ≤ hi) →
  ∃ v, acpl l = Ok v ∧ lo ≤ round v ≤ hi.
Proof.
  intros Hne Hlo Hhi Hl. destruct l as [|x l]; [done|].
  rewrite acpl_nonempty. eexists. split; [done|].
  cbn [round].
  assert (lo ≤ x ≤ hi) as Hx by (apply Hl; by left).
  pose proof (sum_between lo hi (x :: l) Hl) as Hs.
  rewrite <- of_nat_length_cons in Hs.
  split.
  - apply round_nearest_double_ge; lia.
  - apply round_nearest_double_le; lia.
Qed.

(** X11 on the clamped losses 100, 300 and 2000. *)
Lemma acpl_between_bounds_witness :
  ∃ v, acpl [100; 300; 2000] = Ok v ∧ 100 ≤ round v ≤ 2000.
Proof.
  apply (acpl_between_bounds 100 2000 [100; 300; 2000]).
  - discriminate.
  - lia.
  - lia.
  - intros x Hx. repeat (apply elem_of_cons in Hx as [->|Hx]; [lia|]).
    by apply elem_of_nil in Hx.
Defined.

(** Past [2 ** 53] the quotient is not always a double: the average of
    the one loss [2 ** 53 + 1] is the double [2 ** 53], below the loss. *)
Example acpl_rounds_to_double :
  ∃ v, acpl [2 ^ 53 + 1] = Ok v ∧ round v = 2 ^ 53.
Proof. eexists. split; [reflexivity|]. vm_compute. reflexivity. Qed.

(** ** add_acpl on every game *)

Lemma sum_le (hi : Z) (l : list Z) :
  (∀ x, x ∈ l → x ≤ hi) → sum l ≤ hi * len l.
Proof.
  unfold len. induction l as [|x l IH]; intros Hl; [simpl; lia|].
  assert (x ≤ hi) by (apply Hl; by left).
  assert (sum l ≤ hi * Z.of_nat (length l)) as IH'.
  { apply IH. intros y Hy. apply Hl. by right. }
  cbn [sum foldr length]. fold (sum l). lia.
Qed.

Lemma acpl_round_le (hi : Z) (l : list Z) :
  0 ≤ hi ≤ 2 ^ 53 → (∀ x, x ∈ l → x ≤ hi) → ∃ v, acpl l = Ok v ∧ round v ≤ hi.
Proof.
  intros Hhi Hl. destruct l as [|x l]; [exists (PInt 0); split; [done|simpl; lia]|].
  rewrite acpl_nonempty. eexists. split; [done|].
  cbn [round]. apply round_nearest_double_le; [lia|].
  pose proof (sum_le hi (x :: l) Hl) as Hs.
  rewrite <- of_nat_length_cons in Hs. lia.
Qed.

Lemma node_at_is_Some : ∀ d t, (d ≤ end_depth t)%nat → is_Some (node_at d t).
Proof.
  induction d as [|d IH]; intros [c sc ns vs] Hd; [by eexists|].
  destruct vs as [|[m v] rest]; simpl in Hd; [lia|].
  simpl. apply IH. lia.
Qed.

Section AddAcplTotal.
Context {Position : Type} `{!Rules Position}.

Implicit Types (game : Game Position) (r d k : nat).

(** One turn of the loop of [add_acpl] on a node that is not [root_node]
    and has a judgment. *)
Lemma acpl_walk_step game r d node j white_cpl black_cpl :
  S d ≠ r →
  node_at (S d) (root game) = Some node →
  comment node = CJudgment j →
  acpl_walk game r (S d) white_cpl black_cpl
  = if turn (pos (board_at game (S d)))
    then acpl_walk game r d white_cpl
           (black_cpl ++ [cpl (besteval j - playedeval j)])
    else acpl_walk game r d
           (white_cpl ++ [cpl (besteval j - playedeval j)]) black_cpl.
Proof.
  intros Hne Hn Hc. cbn [acpl_walk]. rewrite decide_False by done.
  rewrite Hn, Hc. cbn [judgment_delta].
  by destruct (turn (pos (board_at game (S d)))).
Qed.

Lemma acpl_walk_clamped game r : ∀ d white_cpl black_cpl w b,
  acpl_walk game r d white_cpl black_cpl = Ok (w, b) →
  (∀ x, x ∈ white_cpl → x ≤ 2000) →
  (∀ x, x ∈ black_cpl → x ≤ 2000) →
  (∀ x, x ∈ w → x ≤ 2000) ∧ (∀ x, x ∈ b → x ≤ 2000).
Proof.
  assert (∀ (l : list Z) y, (∀ x, x ∈ l → x ≤ 2000) →
            ∀ x, x ∈ l ++ [cpl y] → x ≤ 2000) as Hsnoc.
  { intros l y Hl x Hx. apply elem_of_app in Hx as [Hx|Hx]; [by apply Hl|].
    apply list_elem_of_singleton in Hx as ->. unfold cpl, MAX_CPL. lia. }
  induction d as [|d IH]; intros wl bl w b Hwalk Hw Hb.
  - cbn [acpl_walk] in Hwalk. case_decide.
    + by injection Hwalk as <- <-.
    + destruct (node_at O (root game)) as [node|]; [|done].
      destruct (judgment_delta (comment node)); [|done].
      by destruct (turn (pos (board_at game O))).
  - destruct (decide (S d = r)) as [Heq|Hne].
    + cbn [acpl_walk] in Hwalk. rewrite decide_True in Hwalk by done.
      by injection Hwalk as <- <-.
    + destruct (node_at (S d) (root game)) as [node|] eqn:Hn;
        [|cbn [acpl_walk] in Hwalk; rewrite decide_False, Hn in Hwalk; done].
      destruct (comment node) as [| |j] eqn:Hc;
        try (cbn [acpl_walk] in Hwalk;
             rewrite decide_False, Hn, Hc in Hwalk; done).
      rewrite (acpl_walk_step game r d node j) in Hwalk by done.
      destruct (turn (pos (board_at game (S d)))).
      * apply (IH _ _ _ _ Hwalk); [done|by apply Hsnoc].
      * apply (IH _ _ _ _ Hwalk); [by apply Hsnoc|done].
Qed.

(** X12. When [add_acpl] returns, the game is the one it was given but for
    the two headers [WhiteACPL] and [BlackACPL]: the tree, the errors, the
    starting position and every other header are kept. Both headers are
    written, each the decimal of an integer that is at most 2000, the
    ceiling [cpl] puts on every loss. *)
Theorem add_acpl_writes_two_headers game r game' :
  add_acpl game r = Ok game' →
  root game' = root game
  ∧ errors game' = errors game
  ∧ setup game' = setup game
  ∧ (∀ key, key ≠ "WhiteACPL" → key ≠ "BlackACPL" →
            headers game' !! key = headers game !! key)
  ∧ ∃ white black,
      headers game' !! "WhiteACPL" = Some (str white) ∧
      headers game' !! "BlackACPL" = Some (str black) ∧
      white ≤ 2000 ∧ black ≤ 2000.
Proof.
  unfold add_acpl. intros Hadd.
  destruct (acpl_walk game r (game_end game) [] []) as [[w b]|e] eqn:Hwalk;
    [|done].
  destruct (acpl_walk_clamped _ _ _ _ _ _ _ Hwalk) as [Hw Hb];
    [by intros x Hx; apply elem_of_nil in Hx..|].
  destruct (acpl_round_le 2000 w ltac:(lia) Hw) as (wa & Hwa & Hwle).
  destruct (acpl_round_le 2000 b ltac:(lia) Hb) as (ba & Hba & Hble).
  rewrite Hwa, Hba in Hadd. injection Hadd as <-. cbn [root errors setup headers].
  split_and!; try done.
  - intros key H1 H2. by rewrite !lookup_insert_ne.
  - exists (round wa), (round ba). split_and!; try done.
    + rewrite lookup_insert_ne by done. by rewrite lookup_insert_eq.
    + by rewrite lookup_insert_eq.
Qed.

Lemma acpl_walk_unjudged game r : ∀ d white_cpl black_cpl,
  (r ≤ d ≤ game_end game)%nat →
  (∃ k, (r < k ≤ d)%nat ∧ loss_at game k = None) →
  acpl_walk game r d white_cpl black_cpl = Raise TypeError.
Proof.
  induction d as [|d IH]; intros wl bl Hd (k & Hk & Hnone); [lia|].
  assert (S d ≠ r) as Hne by lia.
  destruct (node_at_is_Some (S d) (root game)) as [node Hn];
    [unfold game_end in Hd; lia|].
  destruct (comment node) as [| |j] eqn:Hc;
    try (cbn [acpl_walk]; rewrite decide_False, Hn, Hc by done; done).
  rewrite (acpl_walk_step game r d node j) by done.
  assert (k ≠ S d) as Hk'.
  { intros ->. unfold loss_at in Hnone. rewrite Hn in Hnone. simpl in Hnone.
    by rewrite Hc in Hnone. }
  destruct (turn (pos (board_at game (S d))));
    apply IH; try lia; exists k; (split; [lia|done]).
Qed.

(** X13. When a node between [root_node] and the end of the game does not
    hold a judgment (its comment is [None] or a string, as before the moves
    are judged), [add_acpl] raises [TypeError] and writes no header. *)
Theorem add_acpl_needs_judgments game r k :
  (r < k ≤ game_end game)%nat →
  loss_at game k = None →
  add_acpl game r = Raise TypeError.
Proof.
  intros Hk Hnone. unfold add_acpl.
  rewrite acpl_walk_unjudged; [done|lia|]. by exists k.
Qed.

End AddAcplTotal.

(** X12 on 1. d4 with its judgment. *)
Lemma add_acpl_writes_two_headers_witness :
  ∃ game',
    add_acpl Sample.game_d4_judged 0 = Ok game'
    ∧ root game' = root Sample.game_d4_judged
    ∧ headers game' !! "White" = headers Sample.game_d4_judged !! "White"
    ∧ ∃ white black,
        headers game' !! "WhiteACPL" = Some (str white) ∧
        headers game' !! "BlackACPL" = Some (str black) ∧
        white ≤ 2000 ∧ black ≤ 2000.
Proof.
  eexists. split; [reflexivity|].
  edestruct (add_acpl_writes_two_headers Sample.game_d4_judged 0)
    as (Hroot & _ & _ & Hkeys & Hbound); [reflexivity|].
  split_and!; [exact Hroot|apply Hkeys; discriminate|exact Hbound].
Defined.

(** X13 on 1. e4 c5 as [clean_game] leaves it, with no judgment yet. *)
Lemma add_acpl_needs_judgments_witness :
  add_acpl (clean_game Sample.game2) 0 = Raise TypeError.
Proof.
  apply (add_acpl_needs_judgments (clean_game Sample.game2) 0 1).
  - vm_compute. lia.
  - reflexivity.
Defined.

(** ** The walk of analyze_game *)

Section JudgeWalk.
Context {Position : Type} `{!Rules Position} `{!Engine Position}.

Implicit Types (game : Game Position) (s : Session) (r d k : nat).

Lemma move_at_is_Some game k :
  (0 < k ≤ game_end game)%nat → is_Some (move_at game k).
Proof.
  intros Hk. destruct k as [|k]; [lia|]. simpl.
  apply lookup_lt_is_Some. unfold game_end in Hk.
  rewrite end_depth_mainline_moves in Hk. lia.
Qed.

(** A call of [judge_move] from [analyze_game] that returns asked for one
    search or two, and for one when the played move is the best move. *)
Lemma judge_on_returns (b : Board Position) (mv : Move) s j s' :
  judge_on b mv s = (Ok j, s') →
  (length (s_queries s) + 1 ≤ length (s_queries s')
   ≤ length (s_queries s) + 2)%nat
  ∧ (mv = bestmove j →
     playedeval j = besteval j ∧
     length (s_queries s') = (length (s_queries s) + 1)%nat).
Proof.
  unfold judge_on. intros Hj.
  destruct (judge_move mv (mkWorld b (s_engine s) (s_queries s)))
    as [res w'] eqn:Hjm.
  injection Hj as -> <-.
  destruct (judge_move_returns _ _ _ _ Hjm)
    as (rep & e1 & rest & sc & _ & _ & _ & _ & [(Heq & Hp & ->)|(Hne & H)]).
  - unfold asked. cbn [queries s_queries]. rewrite length_app. simpl.
    split; [lia|done].
  - destruct H as (rep' & e2 & sc' & _ & _ & _ & ->).
    unfold asked. cbn [queries s_queries]. rewrite length_app. simpl.
    split; [lia|done].
Qed.

(** With an engine that answers every search with a variation and a score,
    the call returns. *)
Lemma judge_on_answered (b : Board Position) (mv : Move) s :
  (∀ e b', ∃ rep e' best rest sc,
     respond e b' 22 = (Ok rep, e') ∧
     reply_pv rep = Some (best :: rest) ∧ reply_score rep = Some sc) →
  ∃ j s', judge_on b mv s = (Ok j, s').
Proof.
  intros Hans. unfold judge_on.
  destruct (Hans (s_engine s) b) as (rep & e1 & best & rest & sc & Hr & Hpv & Hs).
  destruct (decide (mv = best)) as [->|Hne].
  - rewrite (judge_move_same (mkWorld b (s_engine s) (s_queries s))
               best rep e1 rest sc) by done.
    by eexists _, _.
  - destruct (Hans e1 (push b mv)) as (rep' & e2 & ? & ? & sc' & Hr' & _ & Hs').
    rewrite (judge_move_other (mkWorld b (s_engine s) (s_queries s))
               mv best rep e1 rest sc rep' e2 sc') by done.
    by eexists _, _.
Qed.

(** The values a returning call stores are scores of the engine, up to
    the sign. *)
Lemma judge_on_bounded (bound : Z) (b : Board Position) (mv : Move) s j s' :
  (∀ e b', ∃ rep e' best rest sc,
     respond e b' 22 = (Ok rep, e') ∧
     reply_pv rep = Some (best :: rest) ∧ reply_score rep = Some sc ∧
     - bound ≤ score sc 10000 ≤ bound) →
  judge_on b mv s = (Ok j, s') →
  - bound ≤ besteval j ≤ bound ∧ - bound ≤ playedeval j ≤ bound.
Proof.
  intros Hans. unfold judge_on. intros Hj.
  destruct (judge_move mv (mkWorld b (s_engine s) (s_queries s)))
    as [res w'] eqn:Hjm.
  injection Hj as -> <-.
  destruct (judge_move_returns _ _ _ _ Hjm)
    as (rep & e1 & rest & sc & Hr & _ & Hs & Hbest & Hcase).
  cbn [board engine] in Hr, Hbest, Hcase.
  assert (∀ e b' rep0 e0 sc0,
            respond e b' 22 = (Ok rep0, e0) → reply_score rep0 = Some sc0 →
            ∀ b0, - bound ≤ stored sc0 b0 ≤ bound) as Hsc.
  { intros e b' rep0 e0 sc0 Hr0 Hs0 b0.
    destruct (Hans e b') as (rep1 & e1' & ? & ? & sc1 & Hr1 & _ & Hs1 & Hb1).
    rewrite Hr0 in Hr1. injection Hr1 as <- <-.
    rewrite Hs0 in Hs1. injection Hs1 as <-.
    unfold stored, eval_absolute. destruct (turn (pos b0)); lia. }
  assert (- bound ≤ besteval j ≤ bound) as Hb
    by (rewrite Hbest; by apply (Hsc _ _ _ _ _ Hr Hs)).
  split; [done|].
  destruct Hcase as [(_ & -> & _)|(_ & rep' & e2 & sc' & Hr' & Hs' & -> & _)];
    [done|].
  by apply (Hsc _ _ _ _ _ Hr' Hs').
Qed.

Lemma judge_walk_step game r d mv s :
  S d ≠ r →
  move_at game (S d) = Some mv →
  judge_walk r (S d) game s
  = match judge_on (board_at game d) mv s with
    | (Ok j, s1) =>
        judge_walk r d
          (mkGame (headers game) (errors game) (setup game)
             (update_at (S d) (set_comment (CJudgment j)) (root game))) s1
    | (Raise e, s1) => (Raise e, s1)
    end.
Proof.
  intros Hne Hmv. cbn [judge_walk]. rewrite decide_False by done.
  rewrite Hmv. unfold bind.
  by destruct (judge_on (board_at game d) mv s) as [[j|e] s1].
Qed.

(** What the walk keeps and what it writes, for a property [P] of the
    judgments and bounds [lo] and [hi] on the searches of one call that
    hold for every call the walk can make on the game [game0]; [game] is
    [game0] with other comments. *)
Lemma judge_walk_inv (P : Judgment → Prop) (lo hi : nat) game0 r :
  (∀ k mv s0 j s1,
     (r < k ≤ game_end game0)%nat →
     move_at game0 k = Some mv →
     judge_on (board_at game0 (pred k)) mv s0 = (Ok j, s1) →
     P j ∧ (length (s_queries s0) + lo ≤ length (s_queries s1)
            ≤ length (s_queries s0) + hi)%nat) →
  ∀ d game s game' s',
    mainline_moves (root game) = mainline_moves (root game0) →
    setup game = setup game0 →
    (r ≤ d ≤ game_end game0)%nat →
    judge_walk r d game s = (Ok game', s') →
    headers game' = headers game
    ∧ errors game' = errors game
    ∧ setup game' = setup game
    ∧ mainline_moves (root game') = mainline_moves (root game)
    ∧ (∀ k, (r < k ≤ d)%nat →
            ∃ j, comment <$> node_at k (root game') = Some (CJudgment j) ∧ P j)
    ∧ (∀ k, ¬ (r < k ≤ d)%nat →
            comment <$> node_at k (root game')
            = comment <$> node_at k (root game))
    ∧ (length (s_queries s) + lo * (d - r) ≤ length (s_queries s')
       ≤ length (s_queries s) + hi * (d - r))%nat.
Proof.
  intros Hcall. induction d as [|d IH]; intros game s game' s' Hmoves Hset Hd Hw.
  - assert (r = O) as -> by lia. cbn [judge_walk] in Hw.
    rewrite decide_True in Hw by done. injection Hw as <- <-.
    split_and!; try done; try lia; intros k Hk; lia.
  - destruct (decide (S d = r)) as [<-|Hne].
    + cbn [judge_walk] in Hw. rewrite decide_True in Hw by done.
      injection Hw as <- <-.
      split_and!; try done; try lia; intros k Hk; lia.
    + assert (move_at game (S d) = move_at game0 (S d)) as Hmv
        by (simpl; by rewrite Hmoves).
      destruct (move_at_is_Some game0 (S d)) as [mv Hmv0]; [lia|].
      rewrite Hmv0 in Hmv.
      rewrite (judge_walk_step game r d mv s Hne Hmv) in Hw.
      assert (board_at game d = board_at game0 d) as Hb
        by (unfold board_at; by rewrite Hmoves, Hset).
      rewrite Hb in Hw.
      destruct (judge_on (board_at game0 d) mv s) as [[j|e] s1] eqn:Hj; [|done].
      destruct (Hcall (S d) mv s j s1) as [HP Hq]; [lia|done|done|].
      apply IH in Hw as (Hh & He & Hs & Hm & Hjud & Hframe & Hcount);
        cbn [root setup headers errors] in *;
        [|by rewrite mainline_moves_update_comment|done|lia].
      rewrite mainline_moves_update_comment in Hm.
      split_and!; try done.
      * intros k Hk. destruct (decide (k = S d)) as [->|Hk'].
        -- exists j. split; [|done]. rewrite Hframe by lia.
           apply comment_update_at_same.
           rewrite end_depth_mainline_moves, Hmoves,
             <- end_depth_mainline_moves. unfold game_end in Hd. lia.
        -- apply Hjud. lia.
      * intros k Hk. rewrite Hframe by lia.
        apply comment_update_at_other. lia.
      * replace (S d - r)%nat with (S (d - r)) by lia. nia.
      * replace (S d - r)%nat with (S (d - r)) by lia. nia.
Qed.

(** The walk returns when every call it makes does. *)
Lemma judge_walk_returns game0 r :
  (∀ k mv s0,
     (r < k ≤ game_end game0)%nat →
     move_at game0 k = Some mv →
     ∃ j s1, judge_on (board_at game0 (pred k)) mv s0 = (Ok j, s1)) →
  ∀ d game s,
    mainline_moves (root game) = mainline_moves (root game0) →
    setup game = setup game0 →
    (r ≤ d ≤ game_end game0)%nat →
    ∃ game' s', judge_walk r d game s = (Ok game', s').
Proof.
  intros Hcall. induction d as [|d IH]; intros game s Hmoves Hset Hd.
  - assert (r = O) as -> by lia. by eexists _, _.
  - destruct (decide (S d = r)) as [<-|Hne].
    + cbn [judge_walk]. rewrite decide_True by done. by eexists _, _.
    + assert (move_at game (S d) = move_at game0 (S d)) as Hmv
        by (simpl; by rewrite Hmoves).
      destruct (move_at_is_Some game0 (S d)) as [mv Hmv0]; [lia|].
      rewrite Hmv0 in Hmv.
      rewrite (judge_walk_step game r d mv s Hne Hmv).
      assert (board_at game d = board_at game0 d) as ->
        by (unfold board_at; by rewrite Hmoves, Hset).
      destruct (Hcall (S d) mv s) as (j & s1 & Hj); [lia|done|].
      simpl in Hj. rewrite Hj.
      apply IH; cbn [root setup]; [|done|lia].
      by rewrite mainline_moves_update_comment.
Qed.

End JudgeWalk.

(** ** analyze_game *)

Lemma comment_linearize : ∀ k t,
  (k ≤ end_depth t)%nat → comment <$> node_at k (linearize t) = Some CNone.
Proof.
  induction k as [|k IH]; intros [c sc ns vs] Hk; [done|].
  destruct vs as [|[m v] rest]; simpl in Hk; [lia|].
  simpl. apply IH. lia.
Qed.

Lemma acpl_zeros (l : list Z) :
  (∀ x, x ∈ l → x = 0) → ∃ v, acpl l = Ok v ∧ round v = 0.
Proof.
  intros Hl. destruct l as [|x l]; [by exists (PInt 0)|].
  rewrite acpl_nonempty. eexists. split; [done|]. cbn [round].
  assert (0 * len (x :: l) ≤ sum (x :: l) ≤ 0 * len (x :: l)) as Hs.
  { apply sum_between. intros y Hy. rewrite (Hl y Hy). lia. }
  rewrite <- of_nat_length_cons in Hs.
  pose proof (round_nearest_double_ge 0 _ _ ltac:(lia) (proj1 Hs)).
  pose proof (round_nearest_double_le 0 _ _ ltac:(lia) (proj2 Hs)).
  lia.
Qed.

Lemma acpl_round_between (lo hi : Z) (l : list Z) :
  - 2 ^ 53 ≤ lo ≤ 0 → 0 ≤ hi ≤ 2 ^ 53 →
  (∀ x, x ∈ l → lo ≤ x ≤ hi) →
  ∃ v, acpl l = Ok v ∧ lo ≤ round v ≤ hi.
Proof.
  intros Hlo Hhi Hl. destruct l as [|x l]; [exists (PInt 0); split; [done|simpl; lia]|].
  rewrite acpl_nonempty. eexists. split; [done|]. cbn [round].
  pose proof (sum_between lo hi (x :: l) Hl) as Hs.
  rewrite <- of_nat_length_cons in Hs.
  split.
  - apply round_nearest_double_ge; lia.
  - apply round_nearest_double_le; lia.
Qed.

Section AnalyzeGame.
Context {Position : Type} `{!Rules Position} `{!Engine Position}.

Implicit Types (game : Game Position) (s : Session) (ecodata : list Opening).

Lemma analyze_game_unfold ecodata game s :
  checkgame game = Ok tt →
  analyze_game ecodata game s
  = match judge_walk (first_judged ecodata game)
            (game_end (prepared ecodata game)) (prepared ecodata game) s with
    | (Ok g, s1) => (add_acpl g (first_judged ecodata game), s1)
    | (Raise e, s1) => (Raise e, s1)
    end.
Proof.
  intros Hc. unfold analyze_game, bind, lift. rewrite Hc.
  fold (prepared ecodata game). fold (first_judged ecodata game).
  by destruct (judge_walk _ _ _ s) as [[g|e] s1].
Qed.

(** What the two passes before the walk leave. *)
Lemma prepared_shape ecodata game :
  mainline_moves (root (prepared ecodata game)) = mainline_moves (root game)
  ∧ setup (prepared ecodata game) = setup game
  ∧ errors (prepared ecodata game) = errors game
  ∧ game_end (prepared ecodata game) = game_end game
  ∧ (first_judged ecodata game ≤ game_end game)%nat
  ∧ (∀ k, (k < first_judged ecodata game)%nat →
          comment <$> node_at k (root (prepared ecodata game)) = Some CNone)
  ∧ (∀ key, key ≠ "Moves" → key ≠ "ECO" → key ≠ "Opening" →
            headers (prepared ecodata game) !! key = headers game !! key)
  ∧ headers (prepared ecodata game) !! "Moves"
    = Some (str (Z.of_nat (game_end game - first_judged ecodata game))).
Proof.
  assert (root (clean_game game) = linearize (root game)) as Hroot.
  { unfold clean_game, game_end. simpl. apply clean_walk_linearize. }
  assert (game_end (clean_game game) = game_end game) as Hend.
  { unfold game_end. rewrite Hroot.
    by rewrite !end_depth_mainline_moves, mainline_moves_linearize. }
  unfold prepared, first_judged.
  destruct (classify_opening_cases ecodata (clean_game game))
    as [[_ ->]|(m & Hm & _ & _ & ->)];
    unfold with_moves, classified_game;
    cbn [cl_game cl_root_node root setup errors headers];
    rewrite ?Hend in *.
  - split_and!; try done.
    + by rewrite Hroot, mainline_moves_linearize.
    + lia.
    + intros k Hk. lia.
    + intros key H1 H2 H3. by rewrite lookup_insert_ne.
    + rewrite lookup_insert_eq. do 3 f_equal. lia.
  - split_and!; try done.
    + by rewrite mainline_moves_update_comment, Hroot, mainline_moves_linearize.
    + unfold game_end. cbn [root].
      by rewrite !end_depth_mainline_moves, mainline_moves_update_comment,
        Hroot, mainline_moves_linearize.
    + intros k Hk. rewrite comment_update_at_other by lia.
      rewrite Hroot. apply comment_linearize. unfold game_end in Hm. lia.
    + intros key H1 H2 H3. by rewrite !lookup_insert_ne.
    + by rewrite lookup_insert_eq.
Qed.

(** [add_acpl] on a game whose nodes below [r] all hold judgments. *)
Lemma add_acpl_judged game (r : nat) :
  (r ≤ game_end game)%nat →
  (∀ k, (r < k ≤ game_end game)%nat → is_Some (loss_at game k)) →
  ∃ wa ba,
    acpl (losses game true r (game_end game)) = Ok wa ∧
    acpl (losses game false r (game_end game)) = Ok ba ∧
    add_acpl game r
    = Ok (mkGame (<["BlackACPL" := str (round ba)]>
                    (<["WhiteACPL" := str (round wa)]> (headers game)))
            (errors game) (setup game) (root game)).
Proof.
  intros Hr Hj. unfold add_acpl. rewrite acpl_walk_losses by done.
  cbn [app].
  destruct (acpl_returns (losses game true r (game_end game))) as [wa Hwa].
  destruct (acpl_returns (losses game false r (game_end game))) as [ba Hba].
  exists wa, ba. split_and!; [done..|]. by rewrite Hwa, Hba.
Qed.

Lemma loss_at_judged game (k : nat) (j : Judgment) :
  comment <$> node_at k (root game) = Some (CJudgment j) →
  loss_at game k = Some (Z.min (besteval j - playedeval j) 2000).
Proof. unfold loss_at. by intros ->. Qed.

End AnalyzeGame.

Section AnalyzeGameClaims.
Context {Position : Type} `{!Rules Position} `{!Engine Position}.

Implicit Types (game : Game Position) (s : Session) (ecodata : list Opening).

(** What a return of [analyze_game] went through. *)
Lemma analyze_game_returned ecodata game s game' s' :
  analyze_game ecodata game s = (Ok game', s') →
  checkgame game = Ok tt
  ∧ ∃ g,
      judge_walk (first_judged ecodata game) (game_end game)
        (prepared ecodata game) s = (Ok g, s')
      ∧ add_acpl g (first_judged ecodata game) = Ok game'.
Proof.
  intros Ha. destruct (checkgame game) as [[]|e] eqn:Hc;
    [|unfold analyze_game, bind, lift in Ha; by rewrite Hc in Ha].
  split; [done|]. rewrite (analyze_game_unfold _ _ _ Hc) in Ha.
  destruct (prepared_shape ecodata game) as (_ & _ & _ & Hend & _).
  rewrite Hend in Ha.
  destruct (judge_walk _ _ _ s) as [[g|e] s1]; [|done].
  injection Ha as Ha <-. by exists g.
Qed.

(** X14. When [analyze_game] returns, the game passed [checkgame], the
    moves of its main line are unchanged, every node below the node the
    opening was classified at (or below the root when it was not
    classified) holds a judgment, every node above that node holds no
    comment, and the engine was asked for at least one and at most two
    searches for each judged node. *)
Theorem analyze_game_judges_below_opening ecodata game s game' s' :
  analyze_game ecodata game s = (Ok game', s') →
  let r := first_judged ecodata game in
  let n := game_end game in
  checkgame game = Ok tt
  ∧ (r ≤ n)%nat
  ∧ mainline_moves (root game') = mainline_moves (root game)
  ∧ (∀ k, (r < k ≤ n)%nat →
          ∃ j, comment <$> node_at k (root game') = Some (CJudgment j))
  ∧ (∀ k, (k < r)%nat → comment <$> node_at k (root game') = Some CNone)
  ∧ (length (s_queries s) + (n - r) ≤ length (s_queries s')
     ≤ length (s_queries s) + 2 * (n - r))%nat.
Proof.
  intros Ha r n.
  destruct (analyze_game_returned _ _ _ _ _ Ha) as (Hc & g & Hw & Hadd).
  destruct (prepared_shape ecodata game)
    as (Hmoves & Hset & _ & Hend & Hr & Hclean & _).
  fold r in Hw, Hadd, Hr, Hclean. fold n in Hw, Hr.
  apply (judge_walk_inv (λ _, True) 1 2 (prepared ecodata game) r) in Hw
    as (_ & _ & _ & Hm & Hjud & Hframe & Hcount);
    [|intros k mv s0 j s1 _ _ Hj;
      destruct (judge_on_returns _ _ _ _ _ Hj) as [? _]; split; [done|lia]
     |done|done|rewrite Hend; fold n; lia].
  assert (root game' = root g) as Hroot.
  { unfold add_acpl in Hadd.
    destruct (acpl_walk g r (game_end g) [] []) as [[w b]|]; [|done].
    destruct (acpl w); [|done]. destruct (acpl b); [|done].
    by injection Hadd as <-. }
  rewrite Hroot. split_and!; try done; try lia.
  - by rewrite Hm.
  - intros k Hk. destruct (Hjud k Hk) as (j & Hj & _). by exists j.
  - intros k Hk. rewrite Hframe by lia. by apply Hclean.
Qed.

(** X15. When [analyze_game] returns, the headers of the game are those it
    was given except for the five keys the annotator writes: [Moves] holds
    the number of moves that were judged, [WhiteACPL] and [BlackACPL] are
    present, and every key other than these and [ECO] and [Opening] has the
    value it had; the starting position is kept and no parsing error is
    recorded. *)
Theorem analyze_game_headers ecodata game s game' s' :
  analyze_game ecodata game s = (Ok game', s') →
  (∀ key, key ≠ "Moves" → key ≠ "ECO" → key ≠ "Opening" →
          key ≠ "WhiteACPL" → key ≠ "BlackACPL" →
          headers game' !! key = headers game !! key)
  ∧ headers game' !! "Moves"
    = Some (str (Z.of_nat (game_end game - first_judged ecodata game)))
  ∧ is_Some (headers game' !! "WhiteACPL")
  ∧ is_Some (headers game' !! "BlackACPL")
  ∧ setup game' = setup game
  ∧ errors game' = [].
Proof.
  intros Ha.
  destruct (analyze_game_returned _ _ _ _ _ Ha) as (Hc & g & Hw & Hadd).
  destruct (prepared_shape ecodata game)
    as (Hmoves & Hset & Herr & Hend & Hr & _ & Hkeys & Hply).
  apply (judge_walk_inv (λ _, True) 1 2 (prepared ecodata game)
           (first_judged ecodata game)) in Hw
    as (Hh & He & Hs & _);
    [|intros k mv s0 j s1 _ _ Hj;
      destruct (judge_on_returns _ _ _ _ _ Hj) as [? _]; split; [done|lia]
     |done|done|rewrite Hend; lia].
  assert (errors game = []) as Hnoerr.
  { unfold checkgame in Hc. case_decide as He'; [done|].
    destruct (errors game); [done|]. by destruct He'. }
  unfold add_acpl in Hadd.
  destruct (acpl_walk g _ (game_end g) [] []) as [[w b]|]; [|done].
  destruct (acpl w); [|done]. destruct (acpl b); [|done].
  injection Hadd as <-. cbn [headers setup errors]. rewrite Hh, He, Hs.
  split_and!.
  - intros key H1 H2 H3 H4 H5. rewrite !lookup_insert_ne by done.
    by apply Hkeys.
  - by rewrite !lookup_insert_ne.
  - rewrite lookup_insert_ne by done. rewrite lookup_insert_eq. by eexists.
  - rewrite lookup_insert_eq. by eexists.
  - done.
  - by rewrite Herr.
Qed.

(** X16. With an engine that answers every search with a variation and a
    score of at most [bound] in size, where [2 * bound] is at most
    [2 ** 53], [analyze_game] returns for every game that [checkgame]
    accepts, and the two averages it writes are integers between
    [- 2 * bound] and 2000: a loss is a difference of two scores, cut off
    above only. *)
Theorem analyze_game_returns ecodata game s (bound : Z) :
  checkgame game = Ok tt →
  2 * bound ≤ 2 ^ 53 →
  (∀ e b, ∃ rep e' best rest sc,
     respond e b 22 = (Ok rep, e') ∧
     reply_pv rep = Some (best :: rest) ∧ reply_score rep = Some sc ∧
     - bound ≤ score sc 10000 ≤ bound) →
  ∃ game' s' white black,
    analyze_game ecodata game s = (Ok game', s')
    ∧ headers game' !! "WhiteACPL" = Some (str white)
    ∧ headers game' !! "BlackACPL" = Some (str black)
    ∧ - 2 * bound ≤ white ≤ 2000
    ∧ - 2 * bound ≤ black ≤ 2000.
Proof.
  intros Hc Hbound Hans.
  assert (0 ≤ bound) as Hb0.
  { destruct (Hans (s_engine s) (board_at game 0))
      as (? & ? & ? & ? & ? & _ & _ & _ & ?). lia. }
  assert (∀ e b, ∃ rep e' best rest sc,
            respond e b 22 = (Ok rep, e') ∧
            reply_pv rep = Some (best :: rest) ∧ reply_score rep = Some sc)
    as Hans'.
  { intros e b. destruct (Hans e b) as (rep & e' & best & rest & sc & ? & ? & ? & _).
    by exists rep, e', best, rest, sc. }
  rewrite (analyze_game_unfold _ _ _ Hc).
  destruct (prepared_shape ecodata game)
    as (Hmoves & Hset & _ & Hend & Hr & _).
  destruct (judge_walk_returns (prepared ecodata game)
              (first_judged ecodata game)
              ltac:(intros; by apply judge_on_answered)
              (game_end (prepared ecodata game)) (prepared ecodata game) s
              eq_refl eq_refl ltac:(rewrite Hend; lia))
    as (g & s1 & Hw).
  rewrite Hw.
  apply (judge_walk_inv
           (λ j, - bound ≤ besteval j ≤ bound ∧ - bound ≤ playedeval j ≤ bound)
           1 2 (prepared ecodata game) (first_judged ecodata game)) in Hw
    as (_ & _ & _ & Hm & Hjud & _);
    [|intros k mv s0 j s1' _ _ Hj; split;
      [by apply (judge_on_bounded bound _ _ _ _ _ Hans Hj)
      |destruct (judge_on_returns _ _ _ _ _ Hj) as [? _]; lia]
     |done|done|rewrite Hend; lia].
  assert (game_end g = game_end (prepared ecodata game)) as Hg
    by (unfold game_end; by rewrite !end_depth_mainline_moves, Hm).
  assert (∀ white x,
            x ∈ losses g white (first_judged ecodata game) (game_end g) →
            - 2 * bound ≤ x ≤ 2000) as Hloss.
  { intros white x Hx.
    destruct (elem_of_losses _ _ _ _ _ Hx) as (k & j & Hk & Hj & _ & ->).
    rewrite Hg in Hk. destruct (Hjud k Hk) as (j' & Hj' & Hb1 & Hb2).
    rewrite Hj in Hj'. injection Hj' as <-. lia. }
  destruct (add_acpl_judged g (first_judged ecodata game))
    as (wa & ba & Hwa & Hba & ->).
  - rewrite Hg, Hend. lia.
  - intros k Hk. rewrite Hg in Hk. destruct (Hjud k Hk) as (j & Hj & _).
    rewrite (loss_at_judged _ _ _ Hj). by eexists.
  - destruct (acpl_round_between (- 2 * bound) 2000 _
                ltac:(lia) ltac:(lia) (Hloss true)) as (wa' & Hwa' & Hwb).
    destruct (acpl_round_between (- 2 * bound) 2000 _
                ltac:(lia) ltac:(lia) (Hloss false)) as (ba' & Hba' & Hbb).
    rewrite Hwa in Hwa'. injection Hwa' as <-.
    rewrite Hba in Hba'. injection Hba' as <-.
    eexists _, s1, (round wa), (round ba).
    split; [done|]. cbn [headers].
    split_and!; [|by rewrite lookup_insert_eq|lia..].
    rewrite lookup_insert_ne by done. by rewrite lookup_insert_eq.
Qed.

(** X17. When at every node of the main line the engine's first choice is
    the move that was played, [analyze_game] returns with [WhiteACPL] and
    [BlackACPL] both "0", and the engine was asked for exactly one search
    for each judged move. *)
Theorem analyze_game_best_moves_played ecodata game s :
  checkgame game = Ok tt →
  (∀ e k mv,
     move_at game k = Some mv →
     ∃ rep e' rest sc,
       respond e (board_at game (pred k)) 22 = (Ok rep, e') ∧
       reply_pv rep = Some (mv :: rest) ∧ reply_score rep = Some sc) →
  ∃ game' s',
    analyze_game ecodata game s = (Ok game', s')
    ∧ headers game' !! "WhiteACPL" = Some "0"
    ∧ headers game' !! "BlackACPL" = Some "0"
    ∧ length (s_queries s')
      = (length (s_queries s)
         + (game_end game - first_judged ecodata game))%nat.
Proof.
  intros Hc Hbest. rewrite (analyze_game_unfold _ _ _ Hc).
  destruct (prepared_shape ecodata game)
    as (Hmoves & Hset & _ & Hend & Hr & _).
  set (g0 := prepared ecodata game) in *.
  set (r := first_judged ecodata game) in *.
  assert (∀ k, board_at g0 k = board_at game k) as Hboard
    by (intros k; unfold board_at; by rewrite Hmoves, Hset).
  assert (∀ k, move_at g0 k = move_at game k) as Hmove
    by (intros [|k]; simpl; by rewrite ?Hmoves).
  assert (∀ k mv s0 j s1,
            (r < k ≤ game_end g0)%nat →
            move_at g0 k = Some mv →
            judge_on (board_at g0 (pred k)) mv s0 = (Ok j, s1) →
            playedeval j = besteval j
            ∧ (length (s_queries s0) + 1 ≤ length (s_queries s1)
               ≤ length (s_queries s0) + 1)%nat) as Hcall.
  { intros k mv s0 j s1 _ Hmv Hj. rewrite Hmove in Hmv. rewrite Hboard in Hj.
    destruct (Hbest (s_engine s0) k mv Hmv) as (rep & e' & rest & sc & Hr' & Hpv & Hs).
    unfold judge_on in Hj.
    rewrite (judge_move_same (mkWorld (board_at game (pred k)) (s_engine s0)
                                (s_queries s0)) mv rep e' rest sc) in Hj
      by done.
    injection Hj as <- <-. unfold asked. cbn [queries s_queries playedeval besteval].
    rewrite length_app. simpl. split; [done|lia]. }
  destruct (judge_walk_returns g0 r
              ltac:(intros k mv s0 _ Hmv; rewrite Hmove in Hmv; rewrite Hboard;
                    destruct (Hbest (s_engine s0) k mv Hmv)
                      as (rep & e' & rest & sc & ? & ? & ?);
                    unfold judge_on;
                    rewrite (judge_move_same
                               (mkWorld (board_at game (pred k)) (s_engine s0)
                                  (s_queries s0)) mv rep e' rest sc) by done;
                    by eexists _, _)
              (game_end g0) g0 s eq_refl eq_refl ltac:(rewrite Hend; lia))
    as (g & s1 & Hw).
  rewrite Hw.
  apply (judge_walk_inv (λ j, playedeval j = besteval j) 1 1 g0 r Hcall) in Hw
    as (_ & _ & _ & Hm & Hjud & _ & Hcount); [|done|done|rewrite Hend; lia].
  assert (game_end g = game_end g0) as Hg
    by (unfold game_end; by rewrite !end_depth_mainline_moves, Hm).
  destruct (add_acpl_judged g r) as (wa & ba & Hwa & Hba & ->).
  - rewrite Hg, Hend. lia.
  - intros k Hk. rewrite Hg in Hk. destruct (Hjud k Hk) as (j & Hj & _).
    rewrite (loss_at_judged _ _ _ Hj). by eexists.
  - assert (∀ white x, x ∈ losses g white r (game_end g) → x = 0) as Hzero.
    { intros white x Hx.
      destruct (elem_of_losses _ _ _ _ _ Hx) as (k & j & Hk & Hj & _ & ->).
      rewrite Hg in Hk. destruct (Hjud k Hk) as (j' & Hj' & Hp).
      rewrite Hj in Hj'. injection Hj' as ->. rewrite Hp. lia. }
    destruct (acpl_zeros _ (Hzero true)) as (wa' & Hwa' & Hw0).
    destruct (acpl_zeros _ (Hzero false)) as (ba' & Hba' & Hb0).
    rewrite Hwa in Hwa'. injection Hwa' as <-.
    rewrite Hba in Hba'. injection Hba' as <-.
    eexists _, _. split; [done|]. cbn [headers]. rewrite Hw0, Hb0.
    split_and!.
    + rewrite lookup_insert_ne by done. by rewrite lookup_insert_eq.
    + by rewrite lookup_insert_eq.
    + rewrite Hend in Hcount. lia.
Qed.

End AnalyzeGameClaims.

(** X14 on 1. e4 c5 with the table that knows the position after 1. e4:
    the node after 1... c5 is judged, with two searches. *)
Lemma analyze_game_judges_below_opening_witness :
  ∃ game' s',
    analyze_game Sample.book Sample.game2 (mkSession 0%nat []) = (Ok game', s')
    ∧ (let r := first_judged Sample.book Sample.game2 in
       let n := game_end Sample.game2 in
       checkgame Sample.game2 = Ok tt
       ∧ (r ≤ n)%nat
       ∧ mainline_moves (root game') = mainline_moves (root Sample.game2)
       ∧ (∀ k, (r < k ≤ n)%nat →
               ∃ j, comment <$> node_at k (root game') = Some (CJudgment j))
       ∧ (∀ k, (k < r)%nat → comment <$> node_at k (root game') = Some CNone)
       ∧ (length (s_queries (mkSession 0%nat [])) + (n - r)
          ≤ length (s_queries s')
          ≤ length (s_queries (mkSession 0%nat [])) + 2 * (n - r))%nat).
Proof.
  eexists _, _. split; [vm_compute; reflexivity|].
  apply (@analyze_game_judges_below_opening _ _ Sample.sample_engine
           Sample.book Sample.game2
           (@mkSession _ Sample.sample_engine O [])).
  vm_compute. reflexivity.
Defined.

(** X15 on the same run: the player tags are kept and one move was
    judged. *)
Lemma analyze_game_headers_witness :
  ∃ game' s',
    analyze_game Sample.book Sample.game2 (mkSession 0%nat []) = (Ok game', s')
    ∧ headers game' !! "White" = headers Sample.game2 !! "White"
    ∧ headers game' !! "Moves"
      = Some (str (Z.of_nat (game_end Sample.game2
                             - first_judged Sample.book Sample.game2)))
    ∧ is_Some (headers game' !! "WhiteACPL")
    ∧ is_Some (headers game' !! "BlackACPL").
Proof.
  eexists _, _. split; [vm_compute; reflexivity|].
  edestruct (@analyze_game_headers _ _ Sample.sample_engine Sample.book Sample.game2
               (@mkSession _ Sample.sample_engine O []))
    as (Hkeys & Hmoves & Hw & Hb & _); [vm_compute; reflexivity|].
  split_and!; [apply Hkeys; discriminate|exact Hmoves|exact Hw|exact Hb].
Defined.

(** X16 on 1. e4 c5 with the engine that answers every search with the
    score 10. *)
Lemma analyze_game_returns_witness :
  ∃ game' s' white black,
    @analyze_game _ _ Sample.steady_engine [] Sample.game2
      (@mkSession _ Sample.steady_engine O [])
    = (Ok game', s')
    ∧ headers game' !! "WhiteACPL" = Some (str white)
    ∧ headers game' !! "BlackACPL" = Some (str black)
    ∧ - 2 * 10 ≤ white ≤ 2000
    ∧ - 2 * 10 ≤ black ≤ 2000.
Proof.
  apply (@analyze_game_returns _ _ Sample.steady_engine [] Sample.game2
           (@mkSession _ Sample.steady_engine O []) 10).
  - reflexivity.
  - lia.
  - intros e b. eexists _, _, _, _, _. split_and!; try reflexivity; simpl; lia.
Defined.

(** X17 on 1. e4 e5, the two moves the scripted engine proposes. *)
Lemma analyze_game_best_moves_played_witness :
  ∃ game' s',
    analyze_game [] Sample.game_e4_e5 (mkSession 0%nat []) = (Ok game', s')
    ∧ headers game' !! "WhiteACPL" = Some "0"
    ∧ headers game' !! "BlackACPL" = Some "0"
    ∧ length (s_queries s')
      = (length (s_queries (mkSession 0%nat []))
         + (game_end Sample.game_e4_e5 - first_judged [] Sample.game_e4_e5))%nat.
Proof.
  apply (@analyze_game_best_moves_played _ _ Sample.sample_engine [] Sample.game_e4_e5
           (@mkSession _ Sample.sample_engine O [])).
  - reflexivity.
  - intros e [|[|[|k]]] mv Hmv; simpl in Hmv; try discriminate;
      injection Hmv as <-; eexists _, _, _, _; split_and!; reflexivity.
Defined.

(** ** eco_fen *)

Lemma append_space_inj : ∀ a a' r r' : string,
  has_space a = false → has_space a' = false →
  a +:+ " " +:+ r = a' +:+ " " +:+ r' →
  a = a' ∧ r = r'.
Proof.
  induction a as [|c a IH]; intros [|c' a'] r r' Ha Ha' Heq;
    simpl in Ha, Ha'.
  - change (String Stdlib.Strings.Ascii.Space r
            = String Stdlib.Strings.Ascii.Space r') in Heq.
    by injection Heq as ->.
  - change (String Stdlib.Strings.Ascii.Space r
            = String c' (a' +:+ " " +:+ r')) in Heq.
    injection Heq as <- _. by rewrite decide_True in Ha'.
  - change (String c (a +:+ " " +:+ r)
            = String Stdlib.Strings.Ascii.Space r') in Heq.
    injection Heq as -> _. by rewrite decide_True in Ha.
  - change (String c (a +:+ " " +:+ r) = String c' (a' +:+ " " +:+ r')) in Heq.
    injection Heq as -> Heq.
    destruct (decide (c' = Stdlib.Strings.Ascii.Space)); [done|].
    destruct (IH a' r r' Ha Ha' Heq) as [-> ->]. done.
Qed.

Section EcoFen.
Context {Position : Type} `{!Rules Position}.

(** X18. When the piece placements of two boards have no space in them,
    [eco_fen] gives the two boards the same position string exactly when
    they agree on the placement, the side to move and the castling rights;
    the moves pushed on a board play no part in it. *)
Theorem eco_fen_distinguishes (b1 b2 : Board Position) :
  has_space (board_fen (pos b1)) = false →
  has_space (board_fen (pos b2)) = false →
  eco_fen b1 = eco_fen b2
  ↔ board_fen (pos b1) = board_fen (pos b2)
    ∧ turn (pos b1) = turn (pos b2)
    ∧ castling_xfen (pos b1) = castling_xfen (pos b2).
Proof.
  intros H1 H2. unfold eco_fen. split.
  - intros Heq. apply append_space_inj in Heq as [Hfen Heq]; [|done..].
    apply append_space_inj in Heq as [Hturn Hcastling];
      [|by destruct (turn (pos b1))|by destruct (turn (pos b2))].
    split_and!; try done.
    by destruct (turn (pos b1)), (turn (pos b2)).
  - by intros (-> & -> & ->).
Qed.

End EcoFen.

(** X18 on the position after 1. e4, reached on a board with the move
    pushed and set up on a fresh board. *)
Lemma eco_fen_distinguishes_witness :
  eco_fen (Sample.after [Sample.e2e4])
  = eco_fen (fresh (Position := Sample.Pos) [Sample.e2e4]).
Proof.
  apply (eco_fen_distinguishes (Sample.after [Sample.e2e4])
           (fresh (Position := Sample.Pos) [Sample.e2e4])).
  - vm_compute. reflexivity.
  - vm_compute. reflexivity.
  - split_and!; reflexivity.
Defined.

(** ** The searches of judge_move *)

Section JudgeMoveSearches.
Context {Position : Type} `{!Rules Position} `{!Engine Position}.

(** X19. Whether it returns or raises, [judge_move] asks the engine for the
    search of the caller's board and for at most one more, the search of
    that board with the played move pushed, both at depth 22; the board is
    left as it was or, after the second search only, with the played move
    pushed. *)
Theorem judge_move_searches (w : World) (played : Move) :
  let w' := snd (judge_move played w) in
  (queries w' = queries w ++ [(board w, 22)] ∧ board w' = board w)
  ∨ (queries w'
     = queries w ++ [(board w, 22); (push (board w) played, 22)]
     ∧ (board w' = board w ∨ board w' = push (board w) played)).
Proof.
  intros w'. unfold w'. clear w'.
  destruct (judge_move played w) as [[j|e] w1] eqn:Hj.
  - destruct (judge_move_returns _ _ _ _ Hj)
      as (rep & e1 & rest & sc & _ & _ & _ & _ & [(_ & _ & ->)|(_ & H)]).
    + left. done.
    + destruct H as (rep' & e2 & sc' & _ & _ & _ & ->). right. split; [done|].
      by left.
  - revert Hj. unfold judge_move, bind, analyse, lift.
    destruct (respond (engine w) (board w) 22) as [[rep|e0] e1] eqn:Hr; simpl;
      [|intros [= <- <-]; by left].
    destruct (first_pv_move _) as [best|e0]; simpl;
      [|intros [= <- <-]; by left].
    destruct (eval_numeric _) as [v|e0]; simpl; [|intros [= <- <-]; by left].
    case_decide; [done|].
    unfold board_push, modify; simpl.
    change (mkBoard (step (pos (board w)) played)
              (played :: move_stack (board w))
              (pos (board w) :: stack (board w)))
      with (push (board w) played).
    destruct (respond e1 (push (board w) played) 22) as [[rep'|e0] e2]; simpl.
    + destruct (eval_numeric _) as [v'|e0]; simpl.
      * unfold board_pop; simpl. done.
      * intros [= <- <-]. simpl. right. rewrite <- app_assoc. split; [done|].
        by right.
    + intros [= <- <-]. simpl. right. rewrite <- app_assoc. split; [done|].
      by right.
Qed.

End JudgeMoveSearches.

(** * Properties of chess_retriever.py *)

Section Decode.
Import Retriever.

Lemma decode_loop_odd : ∀ (k : nat) (n : string),
  String.length n = S (2 * k) → ∃ e, decode_loop n = Raises e.
Proof.
  induction k as [|k IH]; intros n Hn.
  - destruct n as [|a [|b rest]]; simpl in Hn; try lia.
    simpl. destruct (index T a); simpl; by eexists.
  - destruct n as [|a [|b rest]]; simpl in Hn; try lia.
    destruct (IH rest) as [e He]; [lia|].
    cbn [decode_loop]. destruct (decode_pair a b); simpl; [|by eexists].
    rewrite He. simpl. by eexists.
Qed.

(** X20. [decode] raises [IndexError] on the empty string, and raises on
    every string with an odd number of characters: the last character has
    no partner, whatever the characters before it decode to. *)
Theorem decode_needs_pairs :
  decode "" = Raises IndexError
  ∧ ∀ n, Nat.odd (String.length n) = true → ∃ e, decode n = Raises e.
Proof.
  split; [done|]. intros n Hodd.
  apply Nat.odd_spec in Hodd as [k Hk].
  destruct (decode_loop_odd k n) as [e He]; [lia|].
  exists e. unfold decode. by rewrite He.
Qed.

(** X21. [decode] returns the first move of the list; it returns it exactly
    when the first two characters decode and so does every later pair, so
    a character that cannot be decoded anywhere in the string makes the
    call raise although only the first move is asked for. *)
Theorem decode_returns_first_move (a b : Ascii.ascii) (rest : string)
    (d : MoveDict) :
  decode (String a (String b rest)) = Returns d
  ↔ decode_pair a b = Returns d ∧ ∃ C, decode_loop rest = Returns C.
Proof.
  unfold decode. cbn [decode_loop].
  destruct (decode_pair a b) as [d'|e]; simpl.
  - destruct (decode_loop rest) as [C|e]; simpl.
    + split; [intros [= ->]; eauto|by intros [[= ->] _]].
    + split; [done|by intros [_ [C ?]]].
  - split; [done|by intros [? _]].
Qed.

End Decode.

(** X20 on a string of three characters. *)
Lemma decode_needs_pairs_witness :
  ∃ e, Retriever.decode "mCZ" = Retriever.Raises e.
Proof.
  apply (proj2 decode_needs_pairs). reflexivity.
Defined.

Section DecodeMoves.
Import Retriever.

(** A test of two numbers that succeeds on all numbers below [m] and [k]
    succeeds on each. *)
Lemma below_by_evaluation (f : nat → nat → bool) (m k : nat) :
  forallb (λ o, forallb (f o) (seq 0 k)) (seq 0 m) = true →
  ∀ o s, (o < m)%nat → (s < k)%nat → f o s = true.
Proof.
  intros Hb o s Ho Hs. rewrite forallb_forall in Hb.
  assert (forallb (f o) (seq 0 k) = true) as Hs'
    by (apply Hb, in_seq; lia).
  rewrite forallb_forall in Hs'. apply Hs', in_seq. lia.
Qed.

(** X22. For every two squares [o] and [s] of the board, [decode] of the
    two characters that stand for them returns the move from the square
    named [o] to the square named [s], file letter and rank number, with
    neither a promotion nor a drop. *)
Theorem decode_ordinary_move (o s : nat) :
  (o < 64)%nat → (s < 64)%nat →
  decode (String (code_of o) (String (code_of s) ""))
  = Returns (mkMoveDict None None (Some (square_name o)) (square_name s)).
Proof.
  intros Ho Hs.
  assert (forallb (λ o, forallb (λ s,
                   bool_decide
                     (decode (String (code_of o) (String (code_of s) ""))
                      = Returns (mkMoveDict None None (Some (square_name o))
                                   (square_name s))))
                             (seq 0 64)) (seq 0 64) = true) as Hall
    by (vm_compute; reflexivity).
  pose proof (below_by_evaluation _ 64 64 Hall o s Ho Hs) as H.
  cbv beta in H.
  by apply bool_decide_eq_true_1 in H.
Qed.

(** X23. For a pawn on the seventh rank (square [48 + o]) and a promotion
    code [64 + s] below 82, [decode] returns the promotion piece
    "qnrbkp"[s / 3] and a target on the eighth rank, on the file of the
    pawn shifted by [s mod 3 - 1], as long as that file is on the board;
    with "+" or "=" as second character it raises [IndexError]. *)
Theorem decode_promotion (o s : nat) :
  (o < 8)%nat → (s < 18)%nat →
  ((1 ≤ o + s `mod` 3 ≤ 8)%nat →
   decode (String (code_of (48 + o)) (String (code_of (64 + s)) ""))
   = Returns (mkMoveDict (piece (s `div` 3)) None
                (Some (square_name (48 + o)))
                (square_name (55 + o + s `mod` 3))))
  ∧ decode (String (code_of (48 + o)) "+") = Raises IndexError
  ∧ decode (String (code_of (48 + o)) "=") = Raises IndexError.
Proof.
  intros Ho Hs.
  assert (forallb (λ o, forallb (λ s,
                   bool_decide
                     (((1 ≤ o + s `mod` 3 ≤ 8)%nat →
                       decode (String (code_of (48 + o))
                                 (String (code_of (64 + s)) ""))
                       = Returns (mkMoveDict (piece (s `div` 3)) None
                                    (Some (square_name (48 + o)))
                                    (square_name (55 + o + s `mod` 3))))
                      ∧ decode (String (code_of (48 + o)) "+")
                        = Raises IndexError
                      ∧ decode (String (code_of (48 + o)) "=")
                        = Raises IndexError))
                             (seq 0 18)) (seq 0 8) = true) as Hall
    by (vm_compute; reflexivity).
  pose proof (below_by_evaluation _ 8 18 Hall o s Ho Hs) as H.
  cbv beta in H.
  by apply bool_decide_eq_true_1 in H.
Qed.

(** X24. With one of the characters from "," to "=" first (numbers 76 to 82
    and 84 in [T]) and a square second, [decode] returns a drop on that
    square and no [from] key; the piece is "qnrbkp"[o - 79], which for the
    numbers 76, 77 and 78 is an index from the end of the string: "b", "k"
    and "p". *)
Theorem decode_drop (o s : nat) :
  (o < 9)%nat → o ≠ 7%nat → (s < 64)%nat →
  decode (String (code_of (76 + o)) (String (code_of s) ""))
  = Returns (mkMoveDict None (piece ((o + 3) `mod` 6)) None (square_name s)).
Proof.
  intros Ho Ho' Hs.
  assert (forallb (λ o, forallb (λ s,
                   bool_decide
                     (o ≠ 7%nat →
                      decode (String (code_of (76 + o)) (String (code_of s) ""))
                      = Returns (mkMoveDict None (piece ((o + 3) `mod` 6)) None
                                   (square_name s))))
                             (seq 0 64)) (seq 0 9) = true) as Hall
    by (vm_compute; reflexivity).
  pose proof (below_by_evaluation _ 9 64 Hall o s Ho Hs) as H.
  cbv beta in H.
  apply bool_decide_eq_true_1 in H. by apply H.
Qed.

End DecodeMoves.

(** X22 on the move list "mC": 1. e4. *)
Lemma decode_ordinary_move_witness :
  Retriever.decode "mC"
  = Retriever.Returns (Retriever.mkMoveDict None None (Some "e2") "e4").
Proof. apply (decode_ordinary_move 12 28); lia. Defined.

(** X23 on "2{" and "2~": the pawn on g7 takes on f8 or goes to g8 and
    becomes a queen; "2+" cannot be decoded. *)
Lemma decode_promotion_witness :
  Retriever.decode "2~"
  = Retriever.Returns (Retriever.mkMoveDict (Some "q") None (Some "g7") "g8")
  ∧ Retriever.decode "2+" = Retriever.Raises Retriever.IndexError.
Proof.
  split.
  - apply (proj1 (decode_promotion 6 1 ltac:(lia) ltac:(lia))).
    vm_compute. lia.
  - apply (proj1 (proj2 (decode_promotion 6 1 ltac:(lia) ltac:(lia)))).
Defined.

(** X24 on "&C" and ",C": a queen and, by the index from the end, a bishop
    dropped on e4. *)
Lemma decode_drop_witness :
  Retriever.decode "&C"
  = Retriever.Returns (Retriever.mkMoveDict None (Some "q") None "e4")
  ∧ Retriever.decode ",C"
    = Retriever.Returns (Retriever.mkMoveDict None (Some "b") None "e4").
Proof.
  split.
  - apply (decode_drop 3 28); lia.
  - apply (decode_drop 0 28); lia.
Defined.

(** * One more property of clean_game *)

Lemma linearize_bare_line (t : GameNode) :
  linearize t = bare_line (mainline_starts t) (starting_comment t).
Proof.
  remember (end_depth t) as n eqn:Hn. revert t Hn.
  induction n as [|n IH]; intros [c sc ns [|[m v] rest]] Hn; simpl in Hn; try done.
  injection Hn as ->. simpl. do 3 f_equal. by apply IH.
Qed.

(** X25. The tree [clean_game] returns is determined by the moves of the
    main line and the starting comments of its nodes, which [clean_game]
    leaves as they are: it holds these moves, each with its starting
    comment, in a single line and nothing else, so two games with the same
    main line and the same starting comments along it are cleaned to the
    same tree, whatever their comments, NAGs and side lines were. *)
Theorem clean_game_keeps_mainline_only {Position : Type}
    (game : Game Position) :
  root (clean_game game)
  = bare_line (mainline_starts (root game)) (starting_comment (root game))
  ∧ ∀ game2 : Game Position,
      mainline_starts (root game2) = mainline_starts (root game) →
      starting_comment (root game2) = starting_comment (root game) →
      root (clean_game game2) = root (clean_game game).
Proof.
  assert (∀ g : Game Position,
            root (clean_game g)
            = bare_line (mainline_starts (root g))
                (starting_comment (root g))) as Hline.
  { intros g. unfold clean_game, game_end. simpl.
    by rewrite clean_walk_linearize, linearize_bare_line. }
  split; [done|]. intros game2 Hsame Hsc. by rewrite !Hline, Hsame, Hsc.
Qed.

(** X25 on the game with comments and side lines and the bare 1. e4 e5. *)
Lemma clean_game_keeps_mainline_only_witness :
  root (clean_game Sample.game_e4_e5) = root (clean_game Sample.game_var).
Proof.
  apply (proj2 (clean_game_keeps_mainline_only Sample.game_var));
    reflexivity.
Defined.
